(** * memoptimizer: the trend estimator and the prediction engine of predict.c

    A shallow embedding of [lsq_fit] and [predict] (src/predict.c) and the
    properties of them that the specification states.

    Conventions of the embedding.
    - The target is LP64 Linux: [long], [long long] and [unsigned long] are
      64 bits wide, [int] is 32 bits wide.  A C value is a [Z]; every
      arithmetic operation writes out its reduction to the width of its C type
      ([wrap64] for the signed 64-bit types, [to_u64] for the unsigned one,
      [wrap32] for [int]).  Signed overflow is undefined in ISO C; the
      embedding gives it the two's complement result that the machine
      produces.
    - C integer division truncates toward zero: it is [Z.quot].  The
      machine's signed division traps on a zero divisor and on the quotient
      [LLONG_MIN / -1] ([sdiv64]); a call of [predict] that comes to such a
      division has the outcome [Traps].
    - Array indices and loop counters ([next], [i], [order]) are [nat];
      [int ready] is only ever tested for zero and set to 1: it is a [bool].
      An array is a list; the arrays of an estimator have [LSQ_LOOKBACK]
      entries, so a loop over all of [i] is a map or a fold over the list.
    - The calls of [log_info] write diagnostics and nothing else; they are
      left out, and with them [verbose] and [nid].
    - predict.h is not part of the sources at hand.  The two array bounds
      [LSQ_LOOKBACK] and [MAX_ORDER] are parameters of every definition that
      uses them; the three flag bits are fixed below. *)

From Stdlib Require Import ZArith Lia Bool Morphisms Setoid.
From stdpp Require Import base list.

Local Open Scope Z_scope.

(** ** Machine integers *)

Module Int.

Definition modulus64 : Z := 2 ^ 64.
Definition half64 : Z := 2 ^ 63.
Definition modulus32 : Z := 2 ^ 32.
Definition half32 : Z := 2 ^ 31.

(** The value of a signed 64-bit object ([long], [long long]) holding [z]. *)
Definition wrap64 (z : Z) : Z := (z + half64) mod modulus64 - half64.

(** Conversion to [unsigned long] / [unsigned long long]. *)
Definition to_u64 (z : Z) : Z := z mod modulus64.

(** Conversion to [int]. *)
Definition wrap32 (z : Z) : Z := (z + half32) mod modulus32 - half32.

Definition in_s64 (z : Z) : Prop := - half64 <= z < half64.
Definition in_u64 (z : Z) : Prop := 0 <= z < modulus64.

(** Arithmetic on [long] / [long long] operands. *)
Definition add64 (a b : Z) : Z := wrap64 (a + b).
Definition sub64 (a b : Z) : Z := wrap64 (a - b).
Definition mul64 (a b : Z) : Z := wrap64 (a * b).
(** The quotient of a signed 64-bit division that the machine carries out
    ([sdiv64_div64] below).  The result of [lsq_fit] is written with it;
    [lsq_fit_traps] tells the calls whose division is not carried out, and
    a call that returns a line has the machine's quotients
    ([lsq_line_carried_out] below). *)
Definition div64 (a b : Z) : Z := wrap64 (Z.quot a b).

(** Signed 64-bit division as the machine does it: the division traps on a
    zero divisor and on the one quotient that does not fit, [LLONG_MIN / -1];
    [None] is the trap.  It is what [predict] uses, whose divisors can be
    -1. *)
Definition sdiv64 (a b : Z) : option Z :=
  if (b =? 0) || ((a =? - half64) && (b =? -1)) then None
  else Some (Z.quot a b).

(** [int abs(int)] of <stdlib.h>: the argument is converted to [int] first,
    and the result is an [int] again ([abs(INT_MIN)] stays [INT_MIN]). *)
Definition abs_int (z : Z) : Z := wrap32 (Z.abs (wrap32 z)).

(** Unsigned 64-bit division, [None] for a zero divisor (the division
    traps). *)
Definition udiv64 (a b : Z) : option Z :=
  if b =? 0 then None else Some (a / b).

(** Congruence modulo 2^64. *)
Definition eqm64 (a b : Z) : Prop := a mod modulus64 = b mod modulus64.

End Int.

Import Int.

Infix "+!" := add64 (at level 50, left associativity).
Infix "-!" := sub64 (at level 50, left associativity).
Infix "*!" := mul64 (at level 40, left associativity).
Infix "/!" := div64 (at level 40, left associativity).
Infix "==m" := eqm64 (at level 70, no associativity).

(** ** The trend estimator: [struct lsq_struct] and [lsq_fit] *)

(** [struct lsq_struct]: the write cursor, the ready flag and the two
    arrays of [LSQ_LOOKBACK] entries (times [x], values [y]). *)
Record lsq_struct : Type := mk_lsq {
  next : nat;
  ready : bool;
  x : list Z;
  y : list Z
}.

Global Instance lsq_struct_inhabited : Inhabited lsq_struct :=
  populate (mk_lsq 0 false [] []).

(** The four accumulators of the summation loop of [lsq_fit]. *)
Record sigmas : Type := mk_sigmas {
  sigma_x : Z;
  sigma_y : Z;
  sigma_xy : Z;
  sigma_xx : Z
}.

(** The loop [for (i = 0; i < LSQ_LOOKBACK; i++) { sigma_x += x[i]; ... }],
    run over the two arrays in step. *)
Fixpoint lsq_sums (xs ys : list Z) (acc : sigmas) : sigmas :=
  match xs, ys with
  | xi :: xs', yi :: ys' =>
      lsq_sums xs' ys'
        {| sigma_x := sigma_x acc +! xi;
           sigma_y := sigma_y acc +! yi;
           sigma_xy := sigma_xy acc +! (xi *! yi);
           sigma_xx := sigma_xx acc +! (xi *! xi) |}
  | _, _ => acc
  end.

(** The insertion at the head of [lsq_fit]: the sample is stored at the
    cursor, the cursor advances and wraps to 0 at [LSQ_LOOKBACK], where the
    window is flagged ready. *)
Definition lsq_insert (LSQ_LOOKBACK : nat) (lsq : lsq_struct)
    (new_y new_x : Z) : lsq_struct :=
  let nxt := next lsq in
  let wraps := bool_decide (S nxt = LSQ_LOOKBACK) in
  {| next := if wraps then 0%nat else S nxt;
     ready := if wraps then true else ready lsq;
     x := <[nxt := new_x]> (x lsq);
     y := <[nxt := new_y]> (y lsq) |}.

(** [x_offset = lsq->x[lsq->next]] and the loop [lsq->x[i] -= x_offset]. *)
Definition x_offset_of (lsq : lsq_struct) : Z := x lsq !!! next lsq.

Definition translate (off : Z) (xs : list Z) : list Z :=
  (fun xi => xi -! off) <$> xs.

(** The loop [lsq->x[i] += x_offset]. *)
Definition restore (off : Z) (xs : list Z) : list Z :=
  (fun xi => xi +! off) <$> xs.

Definition with_x (lsq : lsq_struct) (xs : list Z) : lsq_struct :=
  {| next := next lsq; ready := ready lsq; x := xs; y := y lsq |}.

(** The computation of [lsq_fit] on a full window, after the insertion, for
    a call that returns: [None] is [return -1], [Some (m, c)] is [return 0]
    with [*m] and [*c] written.  The first component is the structure as the
    call leaves it. *)
Definition lsq_line (LSQ_LOOKBACK : nat) (lsq : lsq_struct)
    : lsq_struct * option (Z * Z) :=
  let x_offset := x_offset_of lsq in
  let xs := translate x_offset (x lsq) in
  let s := lsq_sums xs (y lsq) (mk_sigmas 0 0 0 0) in
  let W := Z.of_nat LSQ_LOOKBACK in
  let slope_divisor := (W *! sigma_xx s) -! (sigma_x s *! sigma_x s) in
  if slope_divisor =? 0 then (with_x lsq xs, None)
  else
    let m := (((W *! sigma_xy s) -! (sigma_x s *! sigma_y s)) *! 100)
               /! slope_divisor in
    let c := (sigma_y s -! (m *! sigma_x s)) /! W in
    (with_x lsq (restore x_offset xs), Some (m, c)).

(** [lsq_fit], for a call that returns: the structure as the call leaves
    it, and [None] for [return -1] or [Some (m, c)] for [return 0]. *)
Definition lsq_fit (LSQ_LOOKBACK : nat) (lsq : lsq_struct)
    (new_y new_x : Z) : lsq_struct * option (Z * Z) :=
  let lsq1 := lsq_insert LSQ_LOOKBACK lsq new_y new_x in
  if negb (ready lsq1) then (lsq1, None)
  else lsq_line LSQ_LOOKBACK lsq1.

(** The calls of [lsq_fit] that do not return: on a full window whose
    [slope_divisor] is not zero, one of the divisions of lines 101 and 102
    traps.  (The divisor of line 101 is not negative as long as the
    denominator fits 64 bits, [lsq_line_divisor_nonneg] below; once it has
    overflowed it can be -1, and the dividend [LLONG_MIN].) *)
Definition lsq_line_traps (LSQ_LOOKBACK : nat) (lsq : lsq_struct) : bool :=
  let x_offset := x_offset_of lsq in
  let xs := translate x_offset (x lsq) in
  let s := lsq_sums xs (y lsq) (mk_sigmas 0 0 0 0) in
  let W := Z.of_nat LSQ_LOOKBACK in
  let slope_divisor := (W *! sigma_xx s) -! (sigma_x s *! sigma_x s) in
  if slope_divisor =? 0 then false
  else
    match sdiv64 (((W *! sigma_xy s) -! (sigma_x s *! sigma_y s)) *! 100)
            slope_divisor with
    | None => true
    | Some m =>
        match sdiv64 (sigma_y s -! (m *! sigma_x s)) W with
        | None => true
        | Some _ => false
        end
    end.

Definition lsq_fit_traps (LSQ_LOOKBACK : nat) (lsq : lsq_struct)
    (new_y new_x : Z) : bool :=
  let lsq1 := lsq_insert LSQ_LOOKBACK lsq new_y new_x in
  if negb (ready lsq1) then false
  else lsq_line_traps LSQ_LOOKBACK lsq1.

(** Modelled from the spec: the creation of an estimator is the caller's and
    is not in src/; the spec has it created with an empty buffer and
    ready = false (zero-initialised storage). *)
Definition lsq_init (LSQ_LOOKBACK : nat) : lsq_struct :=
  {| next := 0; ready := false;
     x := replicate LSQ_LOOKBACK 0; y := replicate LSQ_LOOKBACK 0 |}.

(** Feeding a sequence of samples [(value, time)] to one estimator; the
    results of the calls are collected, oldest first. *)
Fixpoint observe_all (LSQ_LOOKBACK : nat) (lsq : lsq_struct)
    (obs : list (Z * Z)) : lsq_struct * list (option (Z * Z)) :=
  match obs with
  | [] => (lsq, [])
  | (vy, vx) :: obs' =>
      let '(lsq1, r) := lsq_fit LSQ_LOOKBACK lsq vy vx in
      let '(lsq2, rs) := observe_all LSQ_LOOKBACK lsq1 obs' in
      (lsq2, r :: rs)
  end.

(** ** The prediction engine: [predict] *)

(** [struct frag_info]: one sample per order. *)
Record frag_info : Type := mk_frag {
  free_pages : Z;
  msecs : Z
}.

Global Instance frag_info_inhabited : Inhabited frag_info :=
  populate (mk_frag 0 0).

(** [struct timespec], as filled in by [clock_gettime]. *)
Record timespec : Type := mk_timespec {
  tv_sec : Z;
  tv_nsec : Z
}.

(** The process-wide rates read by [predict].  They are declared in
    predict.h; predict.c prints both with the conversion [%ld], and they are
    taken here as [long]. *)
Record config : Type := mk_config {
  reclaim_rate : Z;
  compaction_rate : Z
}.

(** Modelled from the spec: the values of the three flag macros are in
    predict.h, which is not in src/; the spec has three independently
    settable bits. *)
Definition MEMPREDICT_RECLAIM : Z := 1.
Definition MEMPREDICT_COMPACT : Z := 2.
Definition MEMPREDICT_LOWER_WMARKS : Z := 4.

(** How a call of [predict] ends: it returns a flag word, or it stops at an
    integer division that traps (a zero divisor, or the quotient
    [LLONG_MIN / -1]). *)
Inductive outcome : Type :=
  | Returns (flags : Z)
  | Traps.

(** How a block inside [predict] ends: control falls through to the next
    statement with the current [retval], or the call is over. *)
Inductive ctl : Type :=
  | Next (retval : Z)
  | Done (o : outcome).

(** The locals of the first loop of [predict]: the estimators (updated in
    place), the arrays [m] and [c], and [is_ready]. *)
Record fit_state : Type := mk_fit_state {
  fs_lsq : list lsq_struct;
  fs_m : list Z;
  fs_c : list Z;
  fs_ready : bool
}.

(** One iteration of [for (order = 0; order < MAX_ORDER; order++)]. *)
Definition fit_order (LSQ_LOOKBACK : nat) (frag_vec : list frag_info)
    (order : nat) (st : fit_state) : fit_state :=
  let f := frag_vec !!! order in
  let '(l1, r) :=
    lsq_fit LSQ_LOOKBACK (fs_lsq st !!! order) (free_pages f) (msecs f) in
  match r with
  | Some (mv, cv) =>
      {| fs_lsq := <[order := l1]> (fs_lsq st);
         fs_m := <[order := mv]> (fs_m st);
         fs_c := <[order := cv]> (fs_c st);
         fs_ready := fs_ready st |}
  | None =>
      {| fs_lsq := <[order := l1]> (fs_lsq st);
         fs_m := fs_m st;
         fs_c := fs_c st;
         fs_ready := false |}
  end.

(** The loop itself: [todo] iterations are left, the next one is for
    [order]. *)
Fixpoint fit_loop (LSQ_LOOKBACK : nat) (frag_vec : list frag_info)
    (todo order : nat) (st : fit_state) : fit_state :=
  match todo with
  | O => st
  | S todo' =>
      fit_loop LSQ_LOOKBACK frag_vec todo' (S order)
        (fit_order LSQ_LOOKBACK frag_vec order st)
  end.

(** The state at the head of the loop; [m] and [c] are uninitialised locals,
    whose entries are read only after [lsq_fit] has written them. *)
Definition fit_start (MAX_ORDER : nat) (lsq : list lsq_struct) : fit_state :=
  {| fs_lsq := lsq;
     fs_m := replicate MAX_ORDER 0;
     fs_c := replicate MAX_ORDER 0;
     fs_ready := true |}.

Definition fit_orders (LSQ_LOOKBACK MAX_ORDER : nat)
    (frag_vec : list frag_info) (lsq : list lsq_struct) : fit_state :=
  fit_loop LSQ_LOOKBACK frag_vec MAX_ORDER 0 (fit_start MAX_ORDER lsq).

(** The order-0 block, [if (m[0] >= 0) ... else ...]. *)
Definition reclaim_branch (cfg : config) (m0 free0 high_wmark retval : Z)
    : ctl :=
  if 0 <=? m0 then Next (Z.lor retval MEMPREDICT_LOWER_WMARKS)
  else if reclaim_rate cfg =? 0 then Done (Returns 0)
  else if to_u64 free0 <=? high_wmark then
    Next (Z.lor retval MEMPREDICT_RECLAIM)
  else
    match udiv64 (to_u64 (free0 - high_wmark)) (to_u64 (abs_int m0)) with
    | None => Done Traps
    | Some time_taken =>
        match udiv64 (to_u64 (free0 - high_wmark))
                     (to_u64 (reclaim_rate cfg)) with
        | None => Done Traps
        | Some time_to_catchup =>
            if time_to_catchup <=? time_taken
            then Next (Z.lor retval MEMPREDICT_RECLAIM)
            else Next retval
        end
    end.

(** The intersection of the line of [order] with the line of order 0;
    [None] when the division traps. *)
Definition x_cross (m c : list Z) (order : nat) : option Z :=
  sdiv64 (((c !!! 0%nat) -! (c !!! order)) *! 100)
         ((m !!! order) -! (m !!! 0%nat)).

Definition y_cross (m c : list Z) (order : nat) : option Z :=
  sdiv64 (((m !!! order) *! (c !!! 0%nat)) -! ((m !!! 0%nat) *! (c !!! order)))
         ((m !!! order) -! (m !!! 0%nat)).

(** [tspec.tv_sec*1000 + tspec.tv_nsec/1000], the bound of the first test. *)
Definition clock_bound (ts : timespec) : Z :=
  (tv_sec ts *! 1000) +! Z.quot (tv_nsec ts) 1000.

(** [time_taken = x_cross - (tspec.tv_sec * 1000) + (tspec.tv_nsec / 1000)],
    stored in an [unsigned long]. *)
Definition time_to_cross (xc : Z) (ts : timespec) : Z :=
  to_u64 ((xc -! (tv_sec ts *! 1000)) +! Z.quot (tv_nsec ts) 1000).

(** [time_to_catchup = (c[0] - y_cross) / compaction_rate], a signed
    division whose result is stored in an [unsigned long]; [None] when the
    division traps. *)
Definition time_to_compact (cfg : config) (c0 yc : Z) : option Z :=
  to_u64 <$> sdiv64 (c0 -! yc) (compaction_rate cfg).

(** The loop [for (order = MAX_ORDER-1; order > 0; order--)].  [clk k] is
    what the [k]-th call of [clock_gettime] of this invocation reads;
    [calls] counts the calls made so far.  The two crossing coordinates are
    computed first, then the clock is read; the third division is made only
    when the first test fails. *)
Fixpoint compact_scan (cfg : config) (clk : nat -> timespec) (m c : list Z)
    (order calls : nat) (retval : Z) : outcome :=
  match order with
  | O => Returns retval
  | S order' =>
      if (m !!! 0%nat) =? (m !!! order) then
        compact_scan cfg clk m c order' calls retval
      else if compaction_rate cfg =? 0 then Returns 0
      else
        match x_cross m c order with
        | None => Traps
        | Some xc =>
            match y_cross m c order with
            | None => Traps
            | Some yc =>
                let tspec := clk calls in
                if (xc <? 0) || (xc <? clock_bound tspec) then
                  Returns (Z.lor retval MEMPREDICT_COMPACT)
                else
                  match time_to_compact cfg (c !!! 0%nat) yc with
                  | None => Traps
                  | Some time_to_catchup =>
                      if time_to_catchup <=? time_to_cross xc tspec then
                        Returns (Z.lor retval MEMPREDICT_COMPACT)
                      else compact_scan cfg clk m c order' (S calls) retval
                  end
            end
        end
  end.

(** What [predict] does once every estimator has produced a line. *)
Definition decide_flags (MAX_ORDER : nat) (cfg : config)
    (clk : nat -> timespec) (m c : list Z) (free0 high_wmark : Z)
    : outcome :=
  match reclaim_branch cfg (m !!! 0%nat) free0 high_wmark 0 with
  | Done o => o
  | Next retval => compact_scan cfg clk m c (MAX_ORDER - 1) 0 retval
  end.

(** Some call of [lsq_fit] in the first loop does not return, and the call
    of [predict] ends there.  (Each order has its own estimator, so the call
    of an order does not depend on the calls before it.) *)
Definition fit_traps (LSQ_LOOKBACK MAX_ORDER : nat)
    (frag_vec : list frag_info) (lsq : list lsq_struct) : bool :=
  existsb
    (fun order =>
       lsq_fit_traps LSQ_LOOKBACK (lsq !!! order)
         (free_pages (frag_vec !!! order)) (msecs (frag_vec !!! order)))
    (seq 0 MAX_ORDER).

(** [predict]: the estimators as the call leaves them, and its outcome.
    With the outcome [Traps] the process is killed and the first component
    is not observed. *)
Definition predict (LSQ_LOOKBACK MAX_ORDER : nat) (cfg : config)
    (clk : nat -> timespec) (frag_vec : list frag_info)
    (lsq : list lsq_struct) (high_wmark : Z)
    : list lsq_struct * outcome :=
  let st := fit_orders LSQ_LOOKBACK MAX_ORDER frag_vec lsq in
  if fit_traps LSQ_LOOKBACK MAX_ORDER frag_vec lsq then (fs_lsq st, Traps)
  else if negb (fs_ready st) then (fs_lsq st, Returns 0)
  else
    (fs_lsq st,
     decide_flags MAX_ORDER cfg clk (fs_m st) (fs_c st)
       (free_pages (frag_vec !!! 0%nat)) high_wmark).

(** The estimator after a sequence of samples, from its creation. *)
Definition lsq_after (LSQ_LOOKBACK : nat) (obs : list (Z * Z)) : lsq_struct :=
  fst (observe_all LSQ_LOOKBACK (lsq_init LSQ_LOOKBACK) obs).

(** The arrays of a structure have [LSQ_LOOKBACK] entries and the cursor is
    inside them. *)
Definition lsq_wf (LSQ_LOOKBACK : nat) (lsq : lsq_struct) : Prop :=
  (next lsq < LSQ_LOOKBACK)%nat
  /\ length (x lsq) = LSQ_LOOKBACK /\ length (y lsq) = LSQ_LOOKBACK.

(** The call of [lsq_fit] that [predict] makes for [order]. *)
Definition fit_call (LSQ_LOOKBACK : nat) (frag_vec : list frag_info)
    (lsq : list lsq_struct) (order : nat) : lsq_struct * option (Z * Z) :=
  lsq_fit LSQ_LOOKBACK (lsq !!! order) (free_pages (frag_vec !!! order))
    (msecs (frag_vec !!! order)).

(** ** Sample data for the concrete runs below *)

(** [n] samples [(value, time)] on a straight line: the values start at
    [y0] and move by [dy] from one sample to the next, the times start at
    [x0] and move by [dx]. *)
Definition line_samples (n : nat) (y0 dy x0 dx : Z) : list (Z * Z) :=
  (fun i : nat => (y0 + dy * Z.of_nat i, x0 + dx * Z.of_nat i)) <$> seq 0 n.

(** [n] estimators that have each seen the same samples. *)
Definition same_history (W n : nat) (obs : list (Z * Z)) : list lsq_struct :=
  replicate n (lsq_after W obs).

(** ** The closed form of the specification

    The least-squares formulas as the specification words them, over exact
    integers; [lsq_line] above is compared with them. *)

Definition sum_with {A : Type} (f : A -> Z) (l : list A) : Z :=
  foldr (fun a acc => f a + acc) 0 l.

(** The stored window as the loop of lines 79-80 leaves it: every stored
    time minus the entry under the cursor, over exact integers.  (The
    entry under the cursor is the time of the oldest sample as long as the
    array holds the samples untranslated; [recent_points] below is the
    window taken from the samples themselves.) *)
Definition translated_points (lsq : lsq_struct) : list (Z * Z) :=
  zip ((fun xi => xi - x_offset_of lsq) <$> x lsq) (y lsq).

Definition Sx (pts : list (Z * Z)) : Z := sum_with fst pts.
Definition Sy (pts : list (Z * Z)) : Z := sum_with snd pts.
Definition Sxy (pts : list (Z * Z)) : Z := sum_with (fun p => fst p * snd p) pts.
Definition Sxx (pts : list (Z * Z)) : Z := sum_with (fun p => fst p * fst p) pts.

Definition slope_numerator (W : Z) (pts : list (Z * Z)) : Z :=
  W * Sxy pts - Sx pts * Sy pts.

Definition slope_denominator (W : Z) (pts : list (Z * Z)) : Z :=
  W * Sxx pts - Sx pts * Sx pts.

Definition spec_slope (W : Z) (pts : list (Z * Z)) : Z :=
  Z.quot (slope_numerator W pts * 100) (slope_denominator W pts).

Definition spec_intercept (W : Z) (pts : list (Z * Z)) : Z :=
  Z.quot (Sy pts - spec_slope W pts * Sx pts) W.

Definition least_squares_line (W : Z) (pts : list (Z * Z)) : option (Z * Z) :=
  if slope_denominator W pts =? 0 then None
  else Some (spec_slope W pts, spec_intercept W pts).

(** The quantities that [lsq_fit] tests or divides fit their 64-bit
    variables. *)
Definition no_overflow (W : Z) (pts : list (Z * Z)) : Prop :=
  in_s64 (slope_denominator W pts)
  /\ in_s64 (slope_numerator W pts * 100)
  /\ in_s64 (spec_slope W pts)
  /\ in_s64 (Sy pts - spec_slope W pts * Sx pts).

(** The window of [lsq] with [k] added to every stored time. *)
Definition shift_x (k : Z) (lsq : lsq_struct) : lsq_struct :=
  with_x lsq ((fun xi => xi +! k) <$> x lsq).

(** ** Notions used to state further properties of the two functions *)

(** A run of calls in which every time fits 64 bits and every call on a full
    window produces a line (none takes the [return -1] of the
    divide-by-zero guard). *)
Fixpoint fitted_run (LSQ_LOOKBACK : nat) (lsq : lsq_struct)
    (obs : list (Z * Z)) : Prop :=
  match obs with
  | [] => True
  | (vy, vx) :: obs' =>
      in_s64 vx
      /\ (ready (lsq_insert LSQ_LOOKBACK lsq vy vx) = true ->
          snd (lsq_fit LSQ_LOOKBACK lsq vy vx) <> None)
      /\ fitted_run LSQ_LOOKBACK (fst (lsq_fit LSQ_LOOKBACK lsq vy vx)) obs'
  end.

(** Values that do not fall when time advances: every two points of the
    window are ordered the same way in time and in value. *)
Definition concordant (pts : list (Z * Z)) : Prop :=
  forall p q, p ∈ pts -> q ∈ pts ->
    0 <= (fst q - fst p) * (snd q - snd p).

(** The points lie on the line of integer slope [b] through [(0, a)]. *)
Definition on_line (a b : Z) (pts : list (Z * Z)) : Prop :=
  Forall (fun p => snd p = a + b * fst p) pts.

(** The samples of the window, as pairs (time, value). *)
Definition window (lsq : lsq_struct) : list (Z * Z) := zip (x lsq) (y lsq).

(** The run with [k] added to the time of every sample. *)
Definition shift_times (k : Z) (obs : list (Z * Z)) : list (Z * Z) :=
  (fun p => (fst p, snd p + k)) <$> obs.

(** Two structures at the same point of two runs that differ by [k] in
    every time: same cursor, flag and values, and every slot written so far
    holds a time moved by [k]. *)
Definition shifted_state (k : Z) (l l' : lsq_struct) : Prop :=
  next l' = next l /\ ready l' = ready l /\ y l' = y l
  /\ length (x l') = length (x l)
  /\ forall j, ready l = true \/ (j < next l)%nat ->
       x l' !! j = (fun v => v +! k) <$> (x l !! j).

(** The latest [LSQ_LOOKBACK] samples of a run, oldest first, as points
    (time, value) with the times counted from the oldest of them. *)
Definition recent_points (LSQ_LOOKBACK : nat) (obs : list (Z * Z))
    : list (Z * Z) :=
  let recent := drop (length obs - LSQ_LOOKBACK) obs in
  let t0 := default 0 (snd <$> head recent) in
  (fun p => (snd p - t0, fst p)) <$> recent.

(** Every division that the compaction scan can come to make is one the
    machine carries out: for each order that is not parallel to order 0,
    the two of the crossing and, for the crossing found, the one of
    [time_to_catchup]. *)
Definition scan_divisions_defined (MAX_ORDER : nat) (cfg : config)
    (m c : list Z) : Prop :=
  forall order, (1 <= order < MAX_ORDER)%nat ->
    m !!! order <> m !!! 0%nat ->
    exists xc yc ttc,
      x_cross m c order = Some xc /\ y_cross m c order = Some yc
      /\ time_to_compact cfg (c !!! 0%nat) yc = Some ttc.

(** The orders that the scan looks at, in the order in which it comes to
    them: from MAX_ORDER - 1 down to 1, without the orders parallel to
    order 0. *)
Definition scan_candidates (MAX_ORDER : nat) (m : list Z) : list nat :=
  filter (fun order => m !!! order <> m !!! 0%nat)
         (reverse (seq 1 (MAX_ORDER - 1))).

(** The crossing of the trend lines of order 0 and [order], and the time
    that compaction takes to catch up with it, as the specification words
    them: over exact integers, with truncating division. *)
Definition spec_x_cross (m c : list Z) (order : nat) : Z :=
  Z.quot ((c !!! 0%nat - c !!! order) * 100) (m !!! order - m !!! 0%nat).

Definition spec_y_cross (m c : list Z) (order : nat) : Z :=
  Z.quot (m !!! order * c !!! 0%nat - m !!! 0%nat * c !!! order)
    (m !!! order - m !!! 0%nat).

Definition spec_time_to_compact (cfg : config) (m c : list Z) (order : nat)
    : Z :=
  Z.quot (c !!! 0%nat - spec_y_cross m c order) (compaction_rate cfg).

(** For each order that is not parallel to order 0, the difference of the
    slopes fits 64 bits and the three dividends of the scan lie strictly
    between LLONG_MIN and LLONG_MAX + 1. *)
Definition scan_in_range (MAX_ORDER : nat) (m c : list Z) : Prop :=
  forall order, (1 <= order < MAX_ORDER)%nat ->
    m !!! order <> m !!! 0%nat ->
    in_s64 (m !!! order - m !!! 0%nat)
    /\ - half64 < (c !!! 0%nat - c !!! order) * 100 < half64
    /\ - half64 < m !!! order * c !!! 0%nat - m !!! 0%nat * c !!! order
       < half64
    /\ - half64 < c !!! 0%nat - spec_y_cross m c order < half64.

(** The condition under which an order sets "compact", for a clock reading
    of a whole number of milliseconds [now = tv_sec * 1000]: the crossing is
    at a negative time, or strictly before [now], or at least
    time_to_compact (read as an unsigned 64-bit number) after it. *)
Definition crossing_triggers (cfg : config) (m c : list Z) (ts : timespec)
    (order : nat) : bool :=
  let now := tv_sec ts * 1000 in
  let xc := spec_x_cross m c order in
  (xc <? 0) || (xc <? now)
  || (to_u64 (spec_time_to_compact cfg m c order) <=? xc - now).

(** Some candidate sets "compact", the [k]-th of them against the [k]-th
    clock reading after [calls]. *)
Fixpoint some_crossing_triggers (cfg : config) (clk : nat -> timespec)
    (m c : list Z) (cands : list nat) (calls : nat) : bool :=
  match cands with
  | [] => false
  | order :: cands' =>
      crossing_triggers cfg m c (clk calls) order
      || some_crossing_triggers cfg clk m c cands' (S calls)
  end.

(** The order-0 slope and free-page count that the decision part of
    [predict] works with. *)
Definition slope0 (st : fit_state) : Z := fs_m st !!! 0%nat.

Definition has_flag (flags flag : Z) : bool :=
  negb (Z.land flags flag =? 0).

(** ** Machine arithmetic: congruence and range lemmas *)

Section Arith.

Lemma modulus64_pos : 0 < modulus64.
Proof. reflexivity. Qed.

Lemma modulus64_half : modulus64 = 2 * half64.
Proof. reflexivity. Qed.

Global Instance eqm64_equiv : Equivalence eqm64.
Proof.
  split.
  - intros a. reflexivity.
  - intros a b H. unfold eqm64 in *. congruence.
  - intros a b c H1 H2. unfold eqm64 in *. congruence.
Qed.

Global Instance add_eqm64 : Proper (eqm64 ==> eqm64 ==> eqm64) Z.add.
Proof.
  intros a a' Ha b b' Hb. unfold eqm64 in *.
  rewrite (Z.add_mod a), (Z.add_mod a') by discriminate. congruence.
Qed.

Global Instance sub_eqm64 : Proper (eqm64 ==> eqm64 ==> eqm64) Z.sub.
Proof.
  intros a a' Ha b b' Hb. unfold eqm64 in *.
  rewrite (Zminus_mod a), (Zminus_mod a'). congruence.
Qed.

Global Instance mul_eqm64 : Proper (eqm64 ==> eqm64 ==> eqm64) Z.mul.
Proof.
  intros a a' Ha b b' Hb. unfold eqm64 in *.
  rewrite (Z.mul_mod a), (Z.mul_mod a') by discriminate. congruence.
Qed.

Lemma wrap64_eqm (z : Z) : wrap64 z ==m z.
Proof.
  unfold eqm64, wrap64.
  rewrite Zminus_mod, Z.mod_mod by discriminate.
  rewrite <- Zminus_mod. f_equal. lia.
Qed.

Lemma wrap64_range (z : Z) : in_s64 (wrap64 z).
Proof.
  unfold in_s64, wrap64.
  pose proof (Z.mod_pos_bound (z + half64) modulus64 modulus64_pos).
  rewrite modulus64_half in *. lia.
Qed.

Lemma wrap64_small (z : Z) : in_s64 z -> wrap64 z = z.
Proof.
  unfold in_s64, wrap64. intros H.
  rewrite Z.mod_small; [lia | rewrite modulus64_half; lia].
Qed.

Lemma eqm64_wrap64 (a b : Z) : a ==m b -> wrap64 a = wrap64 b.
Proof.
  intros H. unfold wrap64.
  assert (Hs : a + half64 ==m b + half64) by (rewrite H; reflexivity).
  unfold eqm64 in Hs. rewrite Hs. reflexivity.
Qed.

Lemma wrap64_inj_eqm (a b : Z) : wrap64 a = wrap64 b -> a ==m b.
Proof.
  intros H. rewrite <- (wrap64_eqm a), <- (wrap64_eqm b), H. reflexivity.
Qed.

Lemma eqm64_small (a b : Z) : in_s64 a -> in_s64 b -> a ==m b -> a = b.
Proof.
  intros Ha Hb H. apply eqm64_wrap64 in H.
  rewrite !wrap64_small in H; assumption.
Qed.

Lemma wrap64_of_eqm (a b : Z) : a ==m b -> in_s64 b -> wrap64 a = b.
Proof.
  intros H Hb. rewrite (eqm64_wrap64 a b H). apply wrap64_small, Hb.
Qed.

Lemma add64_eqm (a b : Z) : a +! b ==m a + b.
Proof. apply wrap64_eqm. Qed.

Lemma sub64_eqm (a b : Z) : a -! b ==m a - b.
Proof. apply wrap64_eqm. Qed.

Lemma mul64_eqm (a b : Z) : a *! b ==m a * b.
Proof. apply wrap64_eqm. Qed.

Lemma to_u64_eqm (z : Z) : to_u64 z ==m z.
Proof. unfold eqm64, to_u64. apply Z.mod_mod. discriminate. Qed.

Lemma to_u64_range (z : Z) : in_u64 (to_u64 z).
Proof. apply Z.mod_pos_bound, modulus64_pos. Qed.

Lemma to_u64_small (z : Z) : in_u64 z -> to_u64 z = z.
Proof. apply Z.mod_small. Qed.

Lemma to_u64_zero (z : Z) : in_s64 z -> to_u64 z = 0 -> z = 0.
Proof.
  unfold in_s64, to_u64. intros Hz H.
  apply Z.mod_divide in H; [| discriminate].
  destruct H as [q Hq]. unfold modulus64, half64 in *. lia.
Qed.

Lemma eqm64_of_eq (a b : Z) : a = b -> a ==m b.
Proof. intros ->. reflexivity. Qed.

(** Truncating division does not grow its dividend. *)
Lemma quot_abs_le (a b : Z) : Z.abs (Z.quot a b) <= Z.abs a.
Proof.
  destruct (Z.eq_dec b 0) as [-> | Hb].
  - assert (H0 : Z.quot a 0 = 0) by (destruct a; reflexivity).
    rewrite H0. simpl. lia.
  - rewrite <- Z.quot_abs by assumption.
    apply Z.quot_le_upper_bound; [lia | nia].
Qed.

Lemma quot_in_s64 (a b : Z) :
  in_s64 a -> - half64 < a \/ 0 <= b -> in_s64 (Z.quot a b).
Proof.
  unfold in_s64. intros Ha Hside.
  pose proof (quot_abs_le a b) as Hle.
  destruct Hside as [Hlt | Hb]; [lia |].
  destruct (Z.eq_dec a (- half64)) as [-> | Hne]; [| lia].
  destruct (Z.eq_dec b 0) as [-> | Hb0].
  - replace (Z.quot (- half64) 0) with 0 by reflexivity.
    unfold half64. lia.
  - assert (Z.quot (- half64) b <= 0).
    { rewrite Z.quot_opp_l by assumption.
      assert (0 <= Z.quot half64 b) by (apply Z.quot_pos; [discriminate | lia]).
      lia. }
    lia.
Qed.

(** A division that does not trap has a quotient that fits. *)
Lemma sdiv64_range (a b q : Z) :
  in_s64 a -> sdiv64 a b = Some q -> in_s64 q.
Proof.
  unfold sdiv64. intros Ha.
  destruct (Z.eqb_spec b 0) as [Hb | Hb]; [discriminate |].
  destruct (Z.eqb_spec a (- half64)) as [Ea | Ea].
  - destruct (Z.eqb_spec b (-1)) as [Eb | Eb]; [discriminate |].
    simpl. intros H. injection H as <-. subst a.
    destruct (Z.lt_ge_cases 0 b) as [Hpos | Hneg].
    + apply quot_in_s64; [exact Ha | right; lia].
    + assert (Hb2 : 2 <= - b) by lia.
      rewrite <- (Z.opp_involutive b), Z.quot_opp_opp by lia.
      assert (0 <= Z.quot half64 (- b))
        by (apply Z.quot_pos; [discriminate | lia]).
      assert (Z.quot half64 (- b) <= half64 - 1).
      { apply Z.quot_le_upper_bound; [lia |]. unfold half64. lia. }
      unfold in_s64. lia.
  - simpl. intros H. injection H as <-.
    apply quot_in_s64; [exact Ha | left]. unfold in_s64 in Ha. lia.
Qed.

(** Where the machine carries out the division, [div64] is its quotient. *)
Lemma sdiv64_div64 (a b q : Z) :
  in_s64 a -> sdiv64 a b = Some q -> a /! b = q.
Proof.
  intros Ha H. pose proof (sdiv64_range a b q Ha H) as Hq.
  unfold sdiv64 in H. destruct (_ || _); [discriminate |].
  injection H as <-. apply wrap64_small, Hq.
Qed.

End Arith.

(** Congruence goals between a wrapped expression and its exact form. *)
Ltac eqm_ring :=
  unfold add64, sub64, mul64; rewrite ?wrap64_eqm; apply eqm64_of_eq; ring.
(** ** The estimator: cursor, ready flag and window fill *)

Section Estimator.

Variable W : nat.

Lemma lsq_line_next (lsq : lsq_struct) :
  next (fst (lsq_line W lsq)) = next lsq.
Proof. unfold lsq_line. case (_ =? 0); reflexivity. Qed.

Lemma lsq_line_ready (lsq : lsq_struct) :
  ready (fst (lsq_line W lsq)) = ready lsq.
Proof. unfold lsq_line. case (_ =? 0); reflexivity. Qed.

Lemma lsq_line_y (lsq : lsq_struct) : y (fst (lsq_line W lsq)) = y lsq.
Proof. unfold lsq_line. case (_ =? 0); reflexivity. Qed.

Lemma lsq_fit_next (lsq : lsq_struct) (vy vx : Z) :
  next (fst (lsq_fit W lsq vy vx)) = next (lsq_insert W lsq vy vx).
Proof.
  unfold lsq_fit. case (negb _); [reflexivity | apply lsq_line_next].
Qed.

Lemma lsq_fit_ready (lsq : lsq_struct) (vy vx : Z) :
  ready (fst (lsq_fit W lsq vy vx)) = ready (lsq_insert W lsq vy vx).
Proof.
  unfold lsq_fit. case (negb _); [reflexivity | apply lsq_line_ready].
Qed.

Lemma lsq_fit_y (lsq : lsq_struct) (vy vx : Z) :
  y (fst (lsq_fit W lsq vy vx)) = <[next lsq := vy]> (y lsq).
Proof.
  unfold lsq_fit. case (negb _); [reflexivity | apply lsq_line_y].
Qed.

Lemma lsq_fit_not_ready (lsq : lsq_struct) (vy vx : Z) :
  ready (lsq_insert W lsq vy vx) = false ->
  snd (lsq_fit W lsq vy vx) = None.
Proof. unfold lsq_fit. intros ->. reflexivity. Qed.

Lemma lsq_insert_ready_mono (lsq : lsq_struct) (vy vx : Z) :
  ready lsq = true -> ready (lsq_insert W lsq vy vx) = true.
Proof. unfold lsq_insert. simpl. intros ->. case bool_decide; reflexivity. Qed.

Lemma lsq_insert_step (lsq : lsq_struct) (vy vx : Z) :
  S (next lsq) <> W ->
  lsq_insert W lsq vy vx
  = mk_lsq (S (next lsq)) (ready lsq)
      (<[next lsq := vx]> (x lsq)) (<[next lsq := vy]> (y lsq)).
Proof.
  intros H. unfold lsq_insert.
  rewrite (bool_decide_eq_false_2 (S (next lsq) = W)) by assumption.
  reflexivity.
Qed.

Lemma lsq_insert_wrap (lsq : lsq_struct) (vy vx : Z) :
  S (next lsq) = W ->
  lsq_insert W lsq vy vx
  = mk_lsq 0 true
      (<[next lsq := vx]> (x lsq)) (<[next lsq := vy]> (y lsq)).
Proof.
  intros H. unfold lsq_insert.
  rewrite (bool_decide_eq_true_2 (S (next lsq) = W)) by assumption.
  reflexivity.
Qed.

Lemma observe_all_cons (lsq : lsq_struct) (vy vx : Z) (obs : list (Z * Z)) :
  observe_all W lsq ((vy, vx) :: obs) =
  (fst (observe_all W (fst (lsq_fit W lsq vy vx)) obs),
   snd (lsq_fit W lsq vy vx)
     :: snd (observe_all W (fst (lsq_fit W lsq vy vx)) obs)).
Proof.
  simpl. destruct (lsq_fit W lsq vy vx) as [l1 r]. simpl.
  destruct (observe_all W l1 obs). reflexivity.
Qed.

Lemma observe_ready_stays (obs : list (Z * Z)) (lsq : lsq_struct) :
  ready lsq = true -> ready (fst (observe_all W lsq obs)) = true.
Proof.
  revert lsq. induction obs as [| [vy vx] obs IH]; intros lsq Hr.
  - exact Hr.
  - rewrite observe_all_cons. simpl. apply IH.
    rewrite lsq_fit_ready. apply lsq_insert_ready_mono, Hr.
Qed.

(** While the window fills, the cursor counts the samples seen. *)
Lemma observe_filling (obs : list (Z * Z)) (lsq : lsq_struct) :
  ready lsq = false -> (next lsq < W)%nat ->
  ready (fst (observe_all W lsq obs))
  = bool_decide (W <= next lsq + length obs)%nat.
Proof.
  revert lsq. induction obs as [| [vy vx] obs IH]; intros lsq Hr Hn.
  - simpl. rewrite Hr. symmetry. apply bool_decide_eq_false. lia.
  - rewrite observe_all_cons. simpl fst. simpl length.
    destruct (decide (S (next lsq) = W)) as [Hw | Hw].
    + rewrite observe_ready_stays.
      * symmetry. apply bool_decide_eq_true. lia.
      * rewrite lsq_fit_ready, lsq_insert_wrap by assumption. reflexivity.
    + rewrite IH.
      * rewrite lsq_fit_next, lsq_insert_step by assumption. simpl.
        apply bool_decide_ext. lia.
      * rewrite lsq_fit_ready, lsq_insert_step by assumption. exact Hr.
      * rewrite lsq_fit_next, lsq_insert_step by assumption. simpl. lia.
Qed.

(** The calls made while the window fills return -1. *)
Lemma observe_filling_results (obs : list (Z * Z)) (lsq : lsq_struct)
    (n : nat) :
  ready lsq = false -> (S (next lsq + n) < W)%nat -> (n < length obs)%nat ->
  snd (observe_all W lsq obs) !! n = Some None.
Proof.
  revert lsq n. induction obs as [| [vy vx] obs IH]; intros lsq n Hr Hn Hl.
  - simpl in Hl. lia.
  - rewrite observe_all_cons. simpl snd.
    assert (Hins : lsq_insert W lsq vy vx
                   = mk_lsq (S (next lsq)) false
                       (<[next lsq := vx]> (x lsq))
                       (<[next lsq := vy]> (y lsq))).
    { rewrite lsq_insert_step by lia. rewrite Hr. reflexivity. }
    destruct n as [| n].
    + simpl. f_equal. apply lsq_fit_not_ready. rewrite Hins. reflexivity.
    + simpl. apply IH.
      * rewrite lsq_fit_ready, Hins. reflexivity.
      * rewrite lsq_fit_next, Hins. simpl. lia.
      * simpl in Hl. lia.
Qed.

(** Every structure that a fresh estimator can become is well formed. *)
Lemma lsq_init_wf : (0 < W)%nat -> lsq_wf W (lsq_init W).
Proof.
  intros HW. unfold lsq_wf, lsq_init. simpl.
  rewrite !length_replicate. repeat split. exact HW.
Qed.

Lemma lsq_line_x_length (lsq : lsq_struct) :
  length (x (fst (lsq_line W lsq))) = length (x lsq).
Proof.
  unfold lsq_line. case (_ =? 0); simpl; unfold restore, translate;
    rewrite ?length_fmap; reflexivity.
Qed.

Lemma lsq_fit_wf (lsq : lsq_struct) (vy vx : Z) :
  lsq_wf W lsq -> lsq_wf W (fst (lsq_fit W lsq vy vx)).
Proof.
  intros (Hn & Hx & Hy). unfold lsq_wf.
  rewrite lsq_fit_next, lsq_fit_y, length_insert.
  repeat split.
  - unfold lsq_insert. simpl. case_bool_decide; lia.
  - unfold lsq_fit. case (negb _).
    + simpl. rewrite length_insert. exact Hx.
    + rewrite lsq_line_x_length. simpl. rewrite length_insert. exact Hx.
  - exact Hy.
Qed.

Lemma observe_all_wf (obs : list (Z * Z)) (lsq : lsq_struct) :
  lsq_wf W lsq -> lsq_wf W (fst (observe_all W lsq obs)).
Proof.
  revert lsq. induction obs as [| [vy vx] obs IH]; intros lsq Hwf.
  - exact Hwf.
  - rewrite observe_all_cons. simpl. apply IH, lsq_fit_wf, Hwf.
Qed.

(** The translated window of a well-formed structure has [W] points. *)
Lemma translated_points_length (lsq : lsq_struct) :
  lsq_wf W lsq -> length (translated_points lsq) = W.
Proof.
  intros (_ & Hx & Hy). unfold translated_points.
  rewrite length_zip, length_fmap, Hx, Hy. lia.
Qed.

End Estimator.

(** C6. For a window length W >= 2 and any sequence of observations fed to
    a fresh estimator: after n observations the ready flag is set exactly
    when n >= W (false during the first W - 1 observations, true from the
    W-th on), each of the first W - 1 calls reports "not ready", and a set
    ready flag is never cleared by a later observation. *)
Theorem window_fill_ready (W : nat) (obs : list (Z * Z)) :
  (2 <= W)%nat ->
  (forall n, (n <= length obs)%nat ->
     ready (lsq_after W (take n obs)) = bool_decide (W <= n)%nat)
  /\ (forall n, (n < W - 1)%nat -> (n < length obs)%nat ->
        snd (observe_all W (lsq_init W) obs) !! n = Some None)
  /\ (forall lsq vy vx, ready lsq = true ->
        ready (fst (lsq_fit W lsq vy vx)) = true).
Proof.
  intros HW. split; [| split].
  - intros n Hn. unfold lsq_after. rewrite observe_filling.
    + simpl. rewrite length_take. apply bool_decide_ext. lia.
    + reflexivity.
    + simpl. lia.
  - intros n Hn Hl. apply observe_filling_results.
    + reflexivity.
    + simpl. lia.
    + exact Hl.
  - intros lsq vy vx Hr. rewrite lsq_fit_ready.
    apply lsq_insert_ready_mono, Hr.
Qed.

Lemma window_fill_ready_witness :
  ready (lsq_after 3 (take 2 [(100, 0); (90, 10); (80, 20); (70, 30)]))
    = false
  /\ ready (lsq_after 3 (take 3 [(100, 0); (90, 10); (80, 20); (70, 30)]))
    = true.
Proof.
  pose proof (window_fill_ready 3 [(100, 0); (90, 10); (80, 20); (70, 30)])
    as H.
  destruct H as [H _]; [lia |].
  split.
  - apply (H 2%nat). simpl. lia.
  - apply (H 3%nat). simpl. lia.
Defined.

(** ** The fit against the closed form *)

Section Fit.

Variable W : nat.

(** The accumulators are congruent to the exact sums over the translated
    points, whatever wrapped on the way. *)
Lemma lsq_sums_eqm (off : Z) (vs ys : list Z) (acc : sigmas) :
  let s := lsq_sums (translate off vs) ys acc in
  let pts := zip ((fun xi => xi - off) <$> vs) ys in
  sigma_x s ==m sigma_x acc + Sx pts
  /\ sigma_y s ==m sigma_y acc + Sy pts
  /\ sigma_xy s ==m sigma_xy acc + Sxy pts
  /\ sigma_xx s ==m sigma_xx acc + Sxx pts.
Proof.
  revert ys acc. induction vs as [| v vs IH]; intros ys acc.
  - simpl. unfold Sx, Sy, Sxy, Sxx. simpl.
    rewrite !Z.add_0_r. repeat split; reflexivity.
  - destruct ys as [| yi ys].
    + simpl. unfold Sx, Sy, Sxy, Sxx. simpl.
      rewrite !Z.add_0_r. repeat split; reflexivity.
    + simpl.
      specialize (IH ys
        {| sigma_x := sigma_x acc +! (v -! off);
           sigma_y := sigma_y acc +! yi;
           sigma_xy := sigma_xy acc +! ((v -! off) *! yi);
           sigma_xx := sigma_xx acc +! ((v -! off) *! (v -! off)) |}).
      simpl in IH. destruct IH as (Hx & Hy & Hxy & Hxx).
      unfold translate in *.
      unfold Sx, Sy, Sxy, Sxx in *. simpl.
      change (list_fmap Z Z) with (@fmap list _ Z Z) in *.
      repeat split.
      * rewrite Hx. eqm_ring.
      * rewrite Hy. eqm_ring.
      * rewrite Hxy. eqm_ring.
      * rewrite Hxx. eqm_ring.
Qed.

(** [lsq_line] on a window whose tested and divided quantities fit. *)
Lemma lsq_line_least_squares (lsq : lsq_struct) :
  no_overflow (Z.of_nat W) (translated_points lsq) ->
  snd (lsq_line W lsq)
  = least_squares_line (Z.of_nat W) (translated_points lsq).
Proof.
  intros (HD & HN & Hm & Hc).
  unfold lsq_line, least_squares_line.
  pose proof (lsq_sums_eqm (x_offset_of lsq) (x lsq) (y lsq)
                (mk_sigmas 0 0 0 0)) as Hs.
  simpl in Hs. fold (translated_points lsq) in Hs.
  set (pts := translated_points lsq) in *.
  set (s := lsq_sums _ _ _) in *.
  destruct Hs as (Hx & Hy & Hxy & Hxx).
  rewrite Z.add_0_l in Hx, Hy, Hxy, Hxx.
  assert (ED : (Z.of_nat W *! sigma_xx s) -! (sigma_x s *! sigma_x s)
               = slope_denominator (Z.of_nat W) pts).
  { apply wrap64_of_eqm; [| exact HD].
    unfold mul64. rewrite !wrap64_eqm, Hx, Hxx. reflexivity. }
  rewrite ED.
  destruct (slope_denominator (Z.of_nat W) pts =? 0) eqn:E0; [reflexivity |].
  assert (EN : ((Z.of_nat W *! sigma_xy s) -! (sigma_x s *! sigma_y s)) *! 100
               = slope_numerator (Z.of_nat W) pts * 100).
  { apply wrap64_of_eqm; [| exact HN].
    unfold sub64, mul64. rewrite !wrap64_eqm, Hx, Hy, Hxy. reflexivity. }
  assert (EM : (((Z.of_nat W *! sigma_xy s) -! (sigma_x s *! sigma_y s))
                  *! 100) /! slope_denominator (Z.of_nat W) pts
               = spec_slope (Z.of_nat W) pts).
  { rewrite EN. unfold div64. apply wrap64_small. exact Hm. }
  simpl. rewrite EM. do 2 f_equal.
  unfold spec_intercept, div64.
  assert (EC : sigma_y s -! (spec_slope (Z.of_nat W) pts *! sigma_x s)
               = Sy pts - spec_slope (Z.of_nat W) pts * Sx pts).
  { apply wrap64_of_eqm; [| exact Hc].
    unfold mul64. rewrite !wrap64_eqm, Hx, Hy. reflexivity. }
  rewrite EC. apply wrap64_small, quot_in_s64; [exact Hc | right; lia].
Qed.

(** Adding [k] to every time moves the offset by [k] and leaves the
    translated window as it was. *)
Lemma shift_x_insert (k : Z) (lsq : lsq_struct) (vy vx : Z) :
  lsq_insert W (shift_x k lsq) vy (vx +! k)
  = shift_x k (lsq_insert W lsq vy vx).
Proof.
  unfold lsq_insert, shift_x, with_x. simpl.
  rewrite list_fmap_insert. reflexivity.
Qed.

Lemma shift_x_translate (k : Z) (lsq : lsq_struct) :
  (next lsq < length (x lsq))%nat ->
  translate (x_offset_of (shift_x k lsq)) (x (shift_x k lsq))
  = translate (x_offset_of lsq) (x lsq).
Proof.
  intros Hn. unfold x_offset_of, shift_x, with_x, translate. simpl.
  rewrite (list_lookup_total_fmap (fun xi => xi +! k) (x lsq) (next lsq) Hn).
  rewrite <- list_fmap_compose. apply list_fmap_ext.
  intros i v _. simpl. apply eqm64_wrap64. eqm_ring.
Qed.

Lemma lsq_line_result_ext (l1 l2 : lsq_struct) :
  translate (x_offset_of l1) (x l1) = translate (x_offset_of l2) (x l2) ->
  y l1 = y l2 ->
  snd (lsq_line W l1) = snd (lsq_line W l2).
Proof.
  intros Hx Hy. unfold lsq_line. rewrite Hx, Hy.
  case (_ =? 0); reflexivity.
Qed.

Lemma lsq_line_traps_ext (l1 l2 : lsq_struct) :
  translate (x_offset_of l1) (x l1) = translate (x_offset_of l2) (x l2) ->
  y l1 = y l2 ->
  lsq_line_traps W l1 = lsq_line_traps W l2.
Proof.
  intros Hx Hy. unfold lsq_line_traps. rewrite Hx, Hy. reflexivity.
Qed.

(** On a call that returns a line, the slope and the intercept are the
    quotients of the machine's two divisions. *)
Lemma lsq_line_carried_out (lsq : lsq_struct) (m c : Z) :
  lsq_line_traps W lsq = false ->
  snd (lsq_line W lsq) = Some (m, c) ->
  let s := lsq_sums (translate (x_offset_of lsq) (x lsq)) (y lsq)
             (mk_sigmas 0 0 0 0) in
  sdiv64 (((Z.of_nat W *! sigma_xy s) -! (sigma_x s *! sigma_y s)) *! 100)
    ((Z.of_nat W *! sigma_xx s) -! (sigma_x s *! sigma_x s)) = Some m
  /\ sdiv64 (sigma_y s -! (m *! sigma_x s)) (Z.of_nat W) = Some c.
Proof.
  unfold lsq_line_traps, lsq_line. simpl.
  set (s := lsq_sums _ _ _).
  destruct (_ =? 0); [intros _ H; discriminate H |].
  match goal with
  | |- context [sdiv64 ?a ?b] =>
      assert (Ha : in_s64 a) by apply wrap64_range;
      destruct (sdiv64 a b) as [m' |] eqn:Em; [| intros H; discriminate H];
      rewrite (sdiv64_div64 a b m' Ha Em)
  end.
  match goal with
  | |- context [sdiv64 ?a ?b] =>
      assert (Hc : in_s64 a) by apply wrap64_range;
      destruct (sdiv64 a b) as [c' |] eqn:Ec; [| intros H; discriminate H];
      rewrite (sdiv64_div64 a b c' Hc Ec)
  end.
  intros _ H. injection H as <- <-.
  split; [reflexivity | exact Ec].
Qed.

(** The call on the window moved by [k] stops at a division exactly when
    the call on the original window does. *)
Lemma shifted_call_traps_alike (lsq : lsq_struct) (vy vx k : Z) :
  lsq_wf W lsq ->
  lsq_fit_traps W (shift_x k lsq) vy (vx +! k) = lsq_fit_traps W lsq vy vx.
Proof.
  intros (Hn & Hl & _). unfold lsq_fit_traps. rewrite shift_x_insert.
  replace (ready (shift_x k (lsq_insert W lsq vy vx)))
    with (ready (lsq_insert W lsq vy vx)) by reflexivity.
  destruct (negb (ready (lsq_insert W lsq vy vx))); [reflexivity |].
  apply lsq_line_traps_ext; [| reflexivity].
  apply shift_x_translate.
  unfold lsq_insert. simpl. rewrite length_insert.
  case_bool_decide; lia.
Qed.

(** A call that finds its window not full makes no division. *)
Lemma lsq_fit_traps_not_ready (lsq : lsq_struct) (vy vx : Z) :
  ready (lsq_insert W lsq vy vx) = false -> lsq_fit_traps W lsq vy vx = false.
Proof. unfold lsq_fit_traps. intros ->. reflexivity. Qed.

(** What each way out of [lsq_fit] leaves in the time array. *)
Lemma lsq_fit_x_not_ready (lsq : lsq_struct) (vy vx : Z) :
  ready (lsq_insert W lsq vy vx) = false ->
  x (fst (lsq_fit W lsq vy vx)) = <[next lsq := vx]> (x lsq).
Proof. unfold lsq_fit. intros ->. reflexivity. Qed.

Lemma restore_translate (off : Z) (xs : list Z) :
  Forall in_s64 xs -> restore off (translate off xs) = xs.
Proof.
  intros Hxs. unfold restore, translate.
  rewrite <- list_fmap_compose.
  rewrite <- (list_fmap_id xs) at 2.
  apply Forall_fmap_ext_1.
  eapply Forall_impl; [exact Hxs |].
  intros v Hv. simpl. unfold add64, sub64.
  apply wrap64_of_eqm; [| exact Hv]. rewrite wrap64_eqm.
  apply eqm64_of_eq. ring.
Qed.

Lemma lsq_fit_x_fitted (lsq : lsq_struct) (vy vx : Z) (mc : Z * Z) :
  Forall in_s64 (x lsq) -> in_s64 vx ->
  snd (lsq_fit W lsq vy vx) = Some mc ->
  x (fst (lsq_fit W lsq vy vx)) = <[next lsq := vx]> (x lsq).
Proof.
  intros Hxs Hvx. unfold lsq_fit.
  destruct (negb (ready (lsq_insert W lsq vy vx))); [discriminate |].
  unfold lsq_line. case (_ =? 0); [discriminate |]. intros _. simpl.
  apply restore_translate, Forall_insert; assumption.
Qed.

Lemma lsq_fit_x_degenerate (lsq : lsq_struct) (vy vx : Z) :
  ready (lsq_insert W lsq vy vx) = true ->
  snd (lsq_fit W lsq vy vx) = None ->
  x (fst (lsq_fit W lsq vy vx))
  = translate (x_offset_of (lsq_insert W lsq vy vx))
      (<[next lsq := vx]> (x lsq)).
Proof.
  unfold lsq_fit. intros ->. simpl negb. cbv iota.
  unfold lsq_line. case (_ =? 0); [| discriminate]. reflexivity.
Qed.

(** A window whose times are all zero sums to zero in [sigma_x] and
    [sigma_xx]. *)
Lemma lsq_sums_zero_times (n : nat) (ys : list Z) (acc : sigmas) :
  sigma_x acc = 0 -> sigma_xx acc = 0 ->
  sigma_x (lsq_sums (replicate n 0) ys acc) = 0
  /\ sigma_xx (lsq_sums (replicate n 0) ys acc) = 0.
Proof.
  revert ys acc. induction n as [| n IH]; intros ys acc Hx Hxx.
  - simpl. destruct ys; auto.
  - destruct ys as [| yi ys]; [simpl; auto |].
    simpl. apply IH; simpl; [rewrite Hx | rewrite Hxx]; reflexivity.
Qed.

(** Whatever the window length: on a full window whose times are all [t]
    the call returns -1 and leaves every stored time at 0. *)
Lemma degenerate_window_any_length (lsq : lsq_struct) (vy vx t : Z) :
  let lsq1 := lsq_insert W lsq vy vx in
  ready lsq1 = true -> in_s64 t ->
  (next lsq1 < length (x lsq1))%nat ->
  x lsq1 = replicate (length (x lsq1)) t ->
  lsq_fit W lsq vy vx
  = (with_x lsq1 (replicate (length (x lsq1)) 0), None).
Proof.
  intros lsq1 Hr Ht Hn Hx. unfold lsq_fit. fold lsq1. rewrite Hr. simpl negb.
  cbv iota. unfold lsq_line.
  assert (Hoff : x_offset_of lsq1 = t).
  { unfold x_offset_of. rewrite Hx.
    apply lookup_total_replicate_2. exact Hn. }
  assert (Htr : translate (x_offset_of lsq1) (x lsq1)
                = replicate (length (x lsq1)) 0).
  { rewrite Hoff. rewrite Hx at 1. unfold translate.
    rewrite fmap_replicate. f_equal.
    unfold sub64. rewrite Z.sub_diag. reflexivity. }
  rewrite Htr.
  destruct (lsq_sums_zero_times (length (x lsq1)) (y lsq1)
              (mk_sigmas 0 0 0 0) eq_refl eq_refl) as [Hsx Hsxx].
  rewrite Hsx, Hsxx.
  replace (Z.of_nat W *! 0 -! 0 *! 0) with 0.
  - reflexivity.
  - unfold sub64, mul64. rewrite Z.mul_0_r. reflexivity.
Qed.

End Fit.

(** C7. Running the fit on a window in which a constant k has been added to
    every time (the stored ones and the new one) yields the same result,
    slope and intercept alike, as running it on the original window. *)
Theorem offset_invariance (W : nat) (lsq : lsq_struct) (new_y new_x k : Z) :
  lsq_wf W lsq ->
  snd (lsq_fit W (shift_x k lsq) new_y (new_x +! k))
  = snd (lsq_fit W lsq new_y new_x).
Proof.
  intros (Hn & Hl & _). unfold lsq_fit. rewrite shift_x_insert.
  replace (ready (shift_x k (lsq_insert W lsq new_y new_x)))
    with (ready (lsq_insert W lsq new_y new_x)) by reflexivity.
  destruct (negb (ready (lsq_insert W lsq new_y new_x))); [reflexivity |].
  apply lsq_line_result_ext; [| reflexivity].
  apply shift_x_translate.
  unfold lsq_insert. simpl. rewrite length_insert.
  case_bool_decide; lia.
Qed.

Lemma offset_invariance_witness :
  snd (lsq_fit 3 (shift_x 1000 (lsq_after 3 [(100, 0); (90, 10)]))
         80 (20 +! 1000))
  = Some (-100, 1090).
Proof.
  rewrite (offset_invariance 3 (lsq_after 3 [(100, 0); (90, 10)]) 80 20 1000).
  - reflexivity.
  - unfold lsq_wf. simpl. repeat split. lia.
Defined.

(** C4 (the code departs from it). A full window whose times are all 7: the
    call finds a zero denominator and returns -1 with the time array still
    translated, so the samples stored before it now carry time 0; with
    windows of three samples, and with windows of eight. *)
Theorem degenerate_window_keeps_translation :
  x (lsq_after 3 [(100, 7); (90, 7)]) = [7; 7; 0]
  /\ lsq_fit 3 (lsq_after 3 [(100, 7); (90, 7)]) 80 7
     = ({| next := 0; ready := true; x := [0; 0; 0]; y := [100; 90; 80] |},
        None)
  /\ x (lsq_after 8 (line_samples 7 100 (-1) 7 0)) = [7; 7; 7; 7; 7; 7; 7; 0]
  /\ x (fst (lsq_fit 8 (lsq_after 8 (line_samples 7 100 (-1) 7 0)) 93 7))
     = [0; 0; 0; 0; 0; 0; 0; 0]
  /\ snd (lsq_fit 8 (lsq_after 8 (line_samples 7 100 (-1) 7 0)) 93 7) = None.
Proof. vm_compute. repeat split. Qed.

(** ** The first loop of [predict] *)

Section FitLoop.

Variable W : nat.
Variable frag_vec : list frag_info.

Lemma fit_order_lsq_other (order j : nat) (st : fit_state) :
  order <> j ->
  fs_lsq (fit_order W frag_vec order st) !!! j = fs_lsq st !!! j.
Proof.
  intros Hne. unfold fit_order.
  destruct (lsq_fit W _ _ _) as [l1 [[mv cv] |]]; simpl;
    apply list_lookup_total_insert_ne, Hne.
Qed.

Lemma fit_order_failed (order : nat) (st : fit_state) :
  snd (fit_call W frag_vec (fs_lsq st) order) = None ->
  fs_ready (fit_order W frag_vec order st) = false.
Proof.
  unfold fit_call, fit_order.
  destruct (lsq_fit W _ _ _) as [l1 [[mv cv] |]]; simpl;
    [discriminate | reflexivity].
Qed.

Lemma fit_order_ready_false (order : nat) (st : fit_state) :
  fs_ready st = false -> fs_ready (fit_order W frag_vec order st) = false.
Proof.
  intros Hr. unfold fit_order.
  destruct (lsq_fit W _ _ _) as [l1 [[mv cv] |]]; simpl;
    [exact Hr | reflexivity].
Qed.

Lemma fit_loop_ready_false (todo order : nat) (st : fit_state) :
  fs_ready st = false ->
  fs_ready (fit_loop W frag_vec todo order st) = false.
Proof.
  revert order st. induction todo as [| todo IH]; intros order st Hr.
  - exact Hr.
  - simpl. apply IH, fit_order_ready_false, Hr.
Qed.

(** An order whose call returns -1 clears [is_ready], wherever in the loop
    it comes. *)
Lemma fit_loop_failed (todo start order : nat) (st : fit_state) :
  (start <= order < start + todo)%nat ->
  snd (fit_call W frag_vec (fs_lsq st) order) = None ->
  fs_ready (fit_loop W frag_vec todo start st) = false.
Proof.
  revert start st. induction todo as [| todo IH]; intros start st Hin Hf.
  - lia.
  - simpl. destruct (decide (start = order)) as [-> | Hne].
    + apply fit_loop_ready_false, fit_order_failed, Hf.
    + apply IH; [lia |].
      unfold fit_call in *. rewrite fit_order_lsq_other by exact Hne.
      exact Hf.
Qed.

End FitLoop.

(** C5 (as worded it fails). Windows of eight samples, two orders.  The
    estimator of order 1 is fresh, so its call returns -1 (its window is not
    full).  The window of order 0 fills on this call, with times so far apart
    that the sums overflow: [slope_divisor] is -1 and the dividend of line
    101 is [LLONG_MIN].  The division traps and [predict] returns nothing,
    not the empty flag set. *)
Lemma unready_order_beside_trapping_fit :
  let W := 8%nat in
  let a := 926155691629764700 in
  let lsq0 :=
    lsq_after W [(2 ^ 61, 0); (0, a); (0, 3 - a); (0, 0); (0, 0); (0, 0);
                 (0, 0)] in
  let lsq := [lsq0; lsq_init W] in
  let frag_vec := [mk_frag 0 0; mk_frag 50 0] in
  snd (fit_call W frag_vec lsq 1) = None
  /\ ready (lsq_insert W lsq0 0 0) = true
  /\ (let s := lsq_sums (translate 0 (x (lsq_insert W lsq0 0 0)))
                 (y (lsq_insert W lsq0 0 0)) (mk_sigmas 0 0 0 0) in
      (8 *! sigma_xx s) -! (sigma_x s *! sigma_x s) = -1
      /\ ((8 *! sigma_xy s) -! (sigma_x s *! sigma_y s)) *! 100 = - 2 ^ 63)
  /\ lsq_fit_traps W lsq0 0 0 = true
  /\ snd (predict W 2 (mk_config 1 1) (fun _ => mk_timespec 0 0) frag_vec lsq 0)
     = Traps.
Proof. vm_compute. repeat split. Qed.

(** C5, amended. If the call of the trend estimator of any order does not
    produce a fitted line on an invocation of [predict] (it returns -1, as
    it does while its window is not full), [predict] returns the empty flag
    set, unless the call of some estimator stops at a trapping division:
    then [predict] does not return. *)
Theorem predict_needs_every_order (W MAX_ORDER : nat) (cfg : config)
    (clk : nat -> timespec) (frag_vec : list frag_info)
    (lsq : list lsq_struct) (high_wmark : Z) (order : nat) :
  (order < MAX_ORDER)%nat ->
  snd (fit_call W frag_vec lsq order) = None ->
  snd (predict W MAX_ORDER cfg clk frag_vec lsq high_wmark)
  = if fit_traps W MAX_ORDER frag_vec lsq then Traps else Returns 0.
Proof.
  intros Ho Hf. unfold predict, fit_orders.
  destruct (fit_traps W MAX_ORDER frag_vec lsq); [reflexivity |].
  rewrite (fit_loop_failed W frag_vec MAX_ORDER 0 order); [reflexivity | lia |].
  exact Hf.
Qed.

Lemma predict_needs_every_order_witness :
  snd (predict 3 2 (mk_config 2 1) (fun _ => mk_timespec 5 0)
         [mk_frag 80 20; mk_frag 40 20]
         [lsq_after 3 [(100, 0); (90, 10)]; lsq_after 3 [(50, 10)]] 50)
  = Returns 0.
Proof.
  rewrite (predict_needs_every_order 3 2 (mk_config 2 1)
             (fun _ => mk_timespec 5 0) [mk_frag 80 20; mk_frag 40 20]
             [lsq_after 3 [(100, 0); (90, 10)]; lsq_after 3 [(50, 10)]]
             50 1).
  - reflexivity.
  - lia.
  - reflexivity.
Defined.

(** ** The decision part of [predict] *)

Section Decision.

Variable cfg : config.
Variable clk : nat -> timespec.
Variables m c : list Z.


(** With a zero compaction rate the scan ends at the first order that is
    not parallel to order 0, with the value 0. *)
Lemma compact_scan_zero_rate (order calls : nat) (retval : Z) :
  compaction_rate cfg = 0 ->
  (exists o, (1 <= o <= order)%nat /\ m !!! o <> m !!! 0%nat) ->
  compact_scan cfg clk m c order calls retval = Returns 0.
Proof.
  intros Hrate. induction order as [| order IH]; intros (o & Ho & Hm).
  - lia.
  - simpl. destruct (Z.eqb_spec (m !!! 0%nat) (m !!! S order)) as [He | Hne].
    + apply IH. exists o. split; [| exact Hm].
      destruct (decide (o = S order)) as [-> | Hd]; [congruence | lia].
    + rewrite Hrate. reflexivity.
Qed.

Lemma compact_scan_zero_rate_cases (order calls : nat) (retval : Z) :
  compaction_rate cfg = 0 ->
  compact_scan cfg clk m c order calls retval = Returns 0
  \/ compact_scan cfg clk m c order calls retval = Returns retval.
Proof.
  intros Hrate. induction order as [| order IH].
  - right. reflexivity.
  - simpl. destruct (Z.eqb_spec (m !!! 0%nat) (m !!! S order)) as [He | Hne].
    + exact IH.
    + rewrite Hrate. left. reflexivity.
Qed.

(** The flag words with which the order-0 block can fall through. *)
Lemma reclaim_branch_next (m0 free0 high_wmark retval : Z) :
  reclaim_branch cfg m0 free0 high_wmark 0 = Next retval ->
  retval = 0 \/ retval = MEMPREDICT_RECLAIM
  \/ retval = MEMPREDICT_LOWER_WMARKS.
Proof.
  unfold reclaim_branch.
  repeat match goal with
         | |- context [if ?b then _ else _] => destruct b
         | |- context [match ?o with Some _ => _ | None => _ end] =>
             destruct o
         end; intros H; inversion H; auto.
Qed.

Lemma abs_int_zero (z : Z) : abs_int z = 0 <-> wrap32 z = 0.
Proof.
  unfold abs_int.
  assert (Hr : - half32 <= wrap32 z < half32).
  { unfold wrap32.
    pose proof (Z.mod_pos_bound (z + half32) modulus32 eq_refl).
    unfold modulus32, half32 in *. lia. }
  set (t := wrap32 z) in *. clearbody t. split.
  - intros H. unfold wrap32 in H.
    destruct (Z.eq_dec (Z.abs t) half32) as [He | Hne].
    + rewrite He in H. vm_compute in H. discriminate H.
    + rewrite Z.mod_small in H; unfold modulus32, half32 in *; lia.
  - intros ->. reflexivity.
Qed.

(** The order-0 block stops at a division only when the slope is negative
    and its conversion to [int] is zero. *)
Lemma reclaim_branch_traps (m0 free0 high_wmark retval : Z) :
  in_s64 (reclaim_rate cfg) ->
  reclaim_branch cfg m0 free0 high_wmark retval = Done Traps <->
  m0 < 0 /\ reclaim_rate cfg <> 0 /\ high_wmark < to_u64 free0
  /\ wrap32 m0 = 0.
Proof.
  intros Hrate. unfold reclaim_branch.
  destruct (Z.leb_spec 0 m0) as [Hm | Hm].
  { split; [discriminate | lia]. }
  destruct (Z.eqb_spec (reclaim_rate cfg) 0) as [Hz | Hz].
  { split; [discriminate | tauto]. }
  destruct (Z.leb_spec (to_u64 free0) high_wmark) as [Hw | Hw].
  { split; [discriminate | lia]. }
  unfold udiv64.
  assert (Hr : (to_u64 (reclaim_rate cfg) =? 0) = false).
  { apply Z.eqb_neq. intros H. apply Hz, to_u64_zero; assumption. }
  rewrite Hr.
  assert (Ha : in_s64 (abs_int m0)).
  { unfold abs_int, in_s64, wrap32.
    pose proof (Z.mod_pos_bound (Z.abs (wrap32 m0) + half32) modulus32
                  eq_refl).
    unfold wrap32, modulus32, half32, half64 in *. lia. }
  destruct (Z.eqb_spec (to_u64 (abs_int m0)) 0) as [H0 | H0].
  - split; [| reflexivity]. intros _.
    repeat split; try assumption.
    apply abs_int_zero, to_u64_zero; assumption.
  - split.
    + destruct (_ <=? _); discriminate.
    + intros (_ & _ & _ & Hw32). exfalso. apply H0.
      apply abs_int_zero in Hw32. rewrite Hw32. reflexivity.
Qed.

End Decision.

(** After the parallel-slope test of a scanned order the two slopes differ,
    and so does their 64-bit difference: the divisor of [x_cross] and
    [y_cross] is not zero. *)
Lemma slope_difference_nonzero (a b : Z) :
  in_s64 a -> in_s64 b -> a <> b -> a -! b <> 0.
Proof.
  intros Ha Hb Hne H0. apply Hne.
  apply eqm64_small; [exact Ha | exact Hb |].
  assert (H : a - b ==m 0).
  { rewrite <- (wrap64_eqm (a - b)). apply eqm64_of_eq. exact H0. }
  assert (Hab : a ==m (a - b) + b) by (apply eqm64_of_eq; ring).
  rewrite Hab, H. reflexivity.
Qed.



(** C2 as stated fails: every estimator is ready, the compaction rate is
    zero, all slopes are equal (100), and [predict] returns "lower
    watermarks", not the empty set; first with windows of two samples and
    two orders, then with windows of eight samples and eleven orders. *)
Lemma zero_rate_parallel_orders_keep_flags :
  let cfg := mk_config 1 0 in
  let clk := fun _ : nat => mk_timespec 1 0 in
  (let frag_vec := [mk_frag 110 10; mk_frag 60 10] in
   let lsq := [lsq_after 2 [(100, 0)]; lsq_after 2 [(50, 0)]] in
   fs_ready (fit_orders 2 2 frag_vec lsq) = true
   /\ fs_m (fit_orders 2 2 frag_vec lsq) = [100; 100]
   /\ compaction_rate cfg = 0
   /\ snd (predict 2 2 cfg clk frag_vec lsq 0)
      = Returns MEMPREDICT_LOWER_WMARKS)
  /\ (let frag_vec := replicate 11 (mk_frag 170 70) in
      let lsq := same_history 8 11 (line_samples 7 100 10 0 10) in
      fs_ready (fit_orders 8 11 frag_vec lsq) = true
      /\ fs_m (fit_orders 8 11 frag_vec lsq) = replicate 11 100
      /\ snd (predict 8 11 cfg clk frag_vec lsq 0)
         = Returns MEMPREDICT_LOWER_WMARKS)
  /\ Returns MEMPREDICT_LOWER_WMARKS <> Returns 0.
Proof. vm_compute. repeat split. discriminate. Qed.

(** C2, amended. When every estimator is ready and the compaction rate is
    zero, the flags that [predict] returns never include "compact"; and if
    some order from 1 to MAX_ORDER - 1 has a slope that differs from the
    slope of order 0, and the order-0 block gets past its own divisions,
    [predict] returns the empty flag set, whatever the order-0 block had
    set.  (All orders being ready, every call of an estimator has returned;
    were one to stop at a trapping division, [predict] would stop with
    it.) *)
Theorem zero_rate_suppression (W MAX_ORDER : nat) (cfg : config)
    (clk : nat -> timespec) (frag_vec : list frag_info)
    (lsq : list lsq_struct) (high_wmark : Z) :
  let st := fit_orders W MAX_ORDER frag_vec lsq in
  let out := snd (predict W MAX_ORDER cfg clk frag_vec lsq high_wmark) in
  fs_ready st = true ->
  compaction_rate cfg = 0 ->
  (out = Traps
   \/ exists flags, out = Returns flags
                    /\ Z.land flags MEMPREDICT_COMPACT = 0)
  /\ ((exists order, (1 <= order < MAX_ORDER)%nat
                     /\ fs_m st !!! order <> fs_m st !!! 0%nat) ->
      reclaim_branch cfg (fs_m st !!! 0%nat)
        (free_pages (frag_vec !!! 0%nat)) high_wmark 0 <> Done Traps ->
      out = if fit_traps W MAX_ORDER frag_vec lsq then Traps
            else Returns 0).
Proof.
  intros st out Hr Hrate. subst out. unfold predict. fold st.
  destruct (fit_traps W MAX_ORDER frag_vec lsq);
    [split; [left; reflexivity | reflexivity] |].
  rewrite Hr. simpl. unfold decide_flags.
  destruct (reclaim_branch cfg (fs_m st !!! 0%nat)
              (free_pages (frag_vec !!! 0%nat)) high_wmark 0)
    as [retval | [flags |]] eqn:Hb.
  - split.
    + right.
      destruct (compact_scan_zero_rate_cases cfg clk (fs_m st) (fs_c st)
                  (MAX_ORDER - 1) 0 retval Hrate) as [-> | ->].
      * exists 0. split; reflexivity.
      * exists retval. split; [reflexivity |].
        destruct (reclaim_branch_next _ _ _ _ _ Hb) as [-> | [-> | ->]];
          reflexivity.
    + intros (order & Ho & Hm) _.
      apply compact_scan_zero_rate; [exact Hrate |].
      exists order. split; [lia | exact Hm].
  - assert (flags = 0) as ->.
    { unfold reclaim_branch in Hb.
      repeat match type of Hb with
             | context [if ?b then _ else _] => destruct b
             | context [match ?o with Some _ => _ | None => _ end] =>
                 destruct o
             end; inversion Hb; reflexivity. }
    split; [right; exists 0; split; reflexivity | reflexivity].
  - split; [left; reflexivity |]. intros _ Hn. contradiction.
Qed.

Lemma zero_rate_suppression_witness :
  snd (predict 2 2 (mk_config 1 0) (fun _ => mk_timespec 1 0)
         [mk_frag 110 10; mk_frag 50 10]
         [lsq_after 2 [(100, 0)]; lsq_after 2 [(50, 0)]] 0)
  = Returns 0.
Proof.
  apply (zero_rate_suppression 2 2 (mk_config 1 0)
           (fun _ => mk_timespec 1 0) [mk_frag 110 10; mk_frag 50 10]
           [lsq_after 2 [(100, 0)]; lsq_after 2 [(50, 0)]] 0).
  - reflexivity.
  - reflexivity.
  - exists 1%nat. split; [lia | vm_compute; discriminate].
  - vm_compute. discriminate.
Defined.

(** ** The compaction scan, order by order *)

Section Scan.

Variable cfg : config.
Variable clk : nat -> timespec.
Variables m c : list Z.

Lemma x_cross_range (order : nat) (xc : Z) :
  x_cross m c order = Some xc -> in_s64 xc.
Proof. unfold x_cross. apply sdiv64_range, wrap64_range. Qed.

(** A clock reading below one microsecond past a whole second: the
    expression of the first test is the time in milliseconds. *)
Lemma clock_bound_whole (ts : timespec) :
  0 <= tv_nsec ts < 1000 -> in_s64 (tv_sec ts * 1000) ->
  clock_bound ts = tv_sec ts * 1000.
Proof.
  intros Hns Hs. unfold clock_bound.
  rewrite Z.quot_small by exact Hns.
  unfold add64, mul64. rewrite Z.add_0_r.
  rewrite (wrap64_small (tv_sec ts * 1000)) by exact Hs.
  apply wrap64_small, Hs.
Qed.

Lemma time_to_cross_whole (xc : Z) (ts : timespec) :
  0 <= tv_nsec ts < 1000 -> in_s64 (tv_sec ts * 1000) ->
  in_s64 xc -> tv_sec ts * 1000 <= xc ->
  time_to_cross xc ts = xc - tv_sec ts * 1000.
Proof.
  intros Hns Hs Hxc Hle. unfold time_to_cross.
  rewrite Z.quot_small by exact Hns.
  rewrite <- (to_u64_small (xc - tv_sec ts * 1000)).
  - unfold to_u64. change (?a mod modulus64 = ?b mod modulus64)
      with (a ==m b).
    eqm_ring.
  - unfold in_u64, in_s64, modulus64, half64 in *. lia.
Qed.

(** A division by a divisor other than zero, of a dividend above
    LLONG_MIN, is one the machine carries out. *)
Lemma sdiv64_defined (a b : Z) :
  b <> 0 -> - half64 < a -> sdiv64 a b = Some (Z.quot a b).
Proof.
  intros Hb Ha. unfold sdiv64.
  destruct (Z.eqb_spec b 0) as [E | _]; [contradiction |].
  destruct (Z.eqb_spec a (- half64)) as [E | _]; [lia | reflexivity].
Qed.

(** Within [scan_in_range] the three divisions of an order are carried out
    and give the quotients of the specification. *)
Lemma scan_in_range_divisions (order : nat) :
  compaction_rate cfg <> 0 ->
  m !!! order <> m !!! 0%nat ->
  in_s64 (m !!! order - m !!! 0%nat) ->
  - half64 < (c !!! 0%nat - c !!! order) * 100 < half64 ->
  - half64 < m !!! order * c !!! 0%nat - m !!! 0%nat * c !!! order
    < half64 ->
  - half64 < c !!! 0%nat - spec_y_cross m c order < half64 ->
  x_cross m c order = Some (spec_x_cross m c order)
  /\ y_cross m c order = Some (spec_y_cross m c order)
  /\ time_to_compact cfg (c !!! 0%nat) (spec_y_cross m c order)
     = Some (to_u64 (spec_time_to_compact cfg m c order)).
Proof.
  intros Hrate Hne Hm Hx Hy Ht.
  assert (Em : (m !!! order) -! (m !!! 0%nat) = m !!! order - m !!! 0%nat)
    by (apply wrap64_small, Hm).
  assert (Ex : ((c !!! 0%nat) -! (c !!! order)) *! 100
               = (c !!! 0%nat - c !!! order) * 100).
  { apply wrap64_of_eqm; [| unfold in_s64; lia].
    unfold sub64. rewrite wrap64_eqm. reflexivity. }
  assert (Ey : ((m !!! order) *! (c !!! 0%nat))
               -! ((m !!! 0%nat) *! (c !!! order))
               = m !!! order * c !!! 0%nat - m !!! 0%nat * c !!! order).
  { apply wrap64_of_eqm; [| unfold in_s64; lia].
    unfold mul64. rewrite !wrap64_eqm. reflexivity. }
  assert (Et : (c !!! 0%nat) -! spec_y_cross m c order
               = c !!! 0%nat - spec_y_cross m c order)
    by (apply wrap64_small; unfold in_s64; lia).
  unfold x_cross, y_cross, time_to_compact.
  rewrite Em, Ex, Ey, Et.
  rewrite !sdiv64_defined by lia.
  repeat split; reflexivity.
Qed.

(** One order of the scan, not parallel to order 0 and within range,
    against a clock reading of whole milliseconds. *)
Lemma compact_scan_step (order calls : nat) (retval : Z) :
  m !!! S order <> m !!! 0%nat ->
  compaction_rate cfg <> 0 ->
  in_s64 (m !!! S order - m !!! 0%nat) ->
  - half64 < (c !!! 0%nat - c !!! S order) * 100 < half64 ->
  - half64 < m !!! S order * c !!! 0%nat - m !!! 0%nat * c !!! S order
    < half64 ->
  - half64 < c !!! 0%nat - spec_y_cross m c (S order) < half64 ->
  0 <= tv_nsec (clk calls) < 1000 ->
  in_s64 (tv_sec (clk calls) * 1000) ->
  compact_scan cfg clk m c (S order) calls retval
  = if crossing_triggers cfg m c (clk calls) (S order)
    then Returns (Z.lor retval MEMPREDICT_COMPACT)
    else compact_scan cfg clk m c order (S calls) retval.
Proof.
  intros Hm Hrate Hd Hx Hy Ht Hns Hs.
  destruct (scan_in_range_divisions (S order) Hrate Hm Hd Hx Hy Ht)
    as (Hxc & Hyc & Httc).
  simpl. unfold crossing_triggers.
  destruct (Z.eqb_spec (m !!! 0%nat) (m !!! S order)) as [He | _];
    [congruence |].
  destruct (Z.eqb_spec (compaction_rate cfg) 0) as [He | _];
    [contradiction |].
  rewrite Hxc, Hyc, Httc, (clock_bound_whole _ Hns Hs).
  set (xc := spec_x_cross m c (S order)) in *.
  destruct ((xc <? 0) || (xc <? tv_sec (clk calls) * 1000)) eqn:Hpast;
    [reflexivity |].
  apply orb_false_iff in Hpast. destruct Hpast as [_ Hnow].
  apply Z.ltb_ge in Hnow.
  rewrite (time_to_cross_whole xc _ Hns Hs (x_cross_range _ _ Hxc) Hnow).
  reflexivity.
Qed.

Lemma candidates_step (order : nat) :
  filter (fun o => m !!! o <> m !!! 0%nat) (reverse (seq 1 (S order)))
  = if decide (m !!! S order <> m !!! 0%nat)
    then S order
         :: filter (fun o => m !!! o <> m !!! 0%nat) (reverse (seq 1 order))
    else filter (fun o => m !!! o <> m !!! 0%nat) (reverse (seq 1 order)).
Proof.
  rewrite seq_S, reverse_snoc. simpl (1 + order)%nat.
  rewrite filter_cons. reflexivity.
Qed.

(** The whole scan from [order] down: "compact" is added exactly when one
    of the candidates triggers, each against the clock reading of its
    turn. *)
Lemma compact_scan_candidates (MAX_ORDER order calls : nat) (retval : Z) :
  compaction_rate cfg <> 0 ->
  (forall k, 0 <= tv_nsec (clk k) < 1000 /\ in_s64 (tv_sec (clk k) * 1000)) ->
  scan_in_range MAX_ORDER m c ->
  (order < MAX_ORDER)%nat \/ order = 0%nat ->
  compact_scan cfg clk m c order calls retval
  = Returns
      (if some_crossing_triggers cfg clk m c
            (filter (fun o => m !!! o <> m !!! 0%nat)
               (reverse (seq 1 order))) calls
       then Z.lor retval MEMPREDICT_COMPACT else retval).
Proof.
  intros Hrate Hclk Hrange. revert calls.
  induction order as [| order IH]; intros calls Ho.
  - reflexivity.
  - rewrite candidates_step.
    destruct (decide (m !!! S order <> m !!! 0%nat)) as [Hne | Heq].
    + destruct (Hrange (S order) ltac:(lia) Hne) as (Hd & Hx & Hy & Ht).
      destruct (Hclk calls) as [Hns Hs].
      rewrite (compact_scan_step order calls retval
                 Hne Hrate Hd Hx Hy Ht Hns Hs).
      simpl some_crossing_triggers.
      destruct (crossing_triggers cfg m c (clk calls) (S order));
        [reflexivity |].
      simpl. apply IH. lia.
    + assert (E : m !!! S order = m !!! 0%nat).
      { destruct (Z.eq_dec (m !!! S order) (m !!! 0%nat)); [assumption |].
        contradiction. }
      simpl compact_scan. rewrite E, Z.eqb_refl.
      apply IH. lia.
Qed.

(** Within range and with a compaction rate that is not zero, every
    division of the scan is carried out. *)
Lemma scan_in_range_defined (MAX_ORDER : nat) :
  compaction_rate cfg <> 0 ->
  scan_in_range MAX_ORDER m c ->
  scan_divisions_defined MAX_ORDER cfg m c.
Proof.
  intros Hrate Hrange order Ho Hne.
  destruct (Hrange order Ho Hne) as (Hd & Hx & Hy & Ht).
  destruct (scan_in_range_divisions order Hrate Hne Hd Hx Hy Ht)
    as (Hxc & Hyc & Httc).
  eauto 6.
Qed.

End Scan.

(** C3 as stated fails, in three ways.  (1) The two fitted lines cross at
    x_cross = 1000 and the clock reads 1 s and 0 ns, that is 1000 ms, so
    x_cross is "less than or equal to the current time"; time_to_cross is 0,
    time_to_compact is 1000; and [predict] does not set "compact".  (2) The
    crossing is 1000 ms after the clock and (intercept0 - y_cross) /
    compaction_rate is -1000, so time_to_cross >= time_to_compact; the code
    compares 1000 with the unsigned reading 2^64 - 1000 and does not set
    "compact".  (3) The slopes are -1 and -2 and the dividend of x_cross is
    -2^63: the division by -1 traps and [predict] returns nothing. *)
Lemma crossing_at_current_time_no_compact :
  let cfg := mk_config 1 1 in
  (let clk := fun _ : nat => mk_timespec 1 0 in
   let frag_vec := [mk_frag 1090 10; mk_frag 595 10] in
   let lsq := [lsq_after 2 [(1100, 0)]; lsq_after 2 [(595, 0)]] in
   let st := fit_orders 2 2 frag_vec lsq in
   fs_ready st = true
   /\ fs_m st = [-100; 0] /\ fs_c st = [1595; 595]
   /\ spec_x_cross (fs_m st) (fs_c st) 1 = 1000
   /\ 1000 <= tv_sec (clk 0%nat) * 1000 + tv_nsec (clk 0%nat) / 1000000
   /\ spec_y_cross (fs_m st) (fs_c st) 1 = 595
   /\ spec_time_to_compact cfg (fs_m st) (fs_c st) 1 = 1000
   /\ snd (predict 2 2 cfg clk frag_vec lsq 0) = Returns 0)
  /\ (let clk := fun _ : nat => mk_timespec 0 0 in
      let frag_vec := [mk_frag 505 10; mk_frag 1000 10] in
      let lsq := [lsq_after 2 [(495, 0)]; lsq_after 2 [(1000, 0)]] in
      let st := fit_orders 2 2 frag_vec lsq in
      fs_ready st = true
      /\ fs_m st = [100; 0] /\ fs_c st = [0; 1000]
      /\ spec_x_cross (fs_m st) (fs_c st) 1 = 1000
      /\ spec_y_cross (fs_m st) (fs_c st) 1 = 1000
      /\ spec_time_to_compact cfg (fs_m st) (fs_c st) 1 = -1000
      /\ 1000 - (tv_sec (clk 0%nat) * 1000) >= -1000
      /\ time_to_compact cfg 0 1000 = Some (2 ^ 64 - 1000)
      /\ snd (predict 2 2 cfg clk frag_vec lsq 0)
         = Returns MEMPREDICT_LOWER_WMARKS)
  /\ (let clk := fun _ : nat => mk_timespec 0 0 in
      let frag_vec := [mk_frag (2 ^ 61 + 51) 100; mk_frag 0 100] in
      let lsq := [lsq_after 2 [(2 ^ 61 + 52, 0)]; lsq_after 2 [(2, 0)]] in
      let st := fit_orders 2 2 frag_vec lsq in
      fs_ready st = true
      /\ fs_m st = [-1; -2]
      /\ ((fs_c st !!! 0%nat) -! (fs_c st !!! 1%nat)) *! 100 = - 2 ^ 63
      /\ (fs_m st !!! 1%nat) -! (fs_m st !!! 0%nat) = -1
      /\ x_cross (fs_m st) (fs_c st) 1 = None
      /\ snd (predict 2 2 cfg clk frag_vec lsq (2 ^ 62)) = Traps)
  /\ Z.land 0 MEMPREDICT_COMPACT = 0
  /\ Z.land MEMPREDICT_LOWER_WMARKS MEMPREDICT_COMPACT = 0.
Proof. vm_compute. repeat split; discriminate. Qed.

(** C3, amended. When every order is ready (no call of an estimator having
    stopped at a trapping division) and the order-0 block falls through
    with some flags, with a compaction rate that is not zero, clock
    readings whose nanosecond field is below 1000 (so that the current time
    is now = tv_sec * 1000 ms, which fits 64 bits) and, for every order not
    parallel to order 0, a slope difference and dividends within 64 bits,
    [predict] goes through the orders from MAX_ORDER - 1 down to 1, passing
    over those whose slope equals the slope of order 0, each of the others
    against the clock reading of its turn, and returns the order-0 flags
    with "compact" added exactly when for one of them
    x_cross = ((intercept0 - intercept_order) * 100) / (slope_order - slope0)
    is negative, or strictly below now, or x_cross - now is at least
    time_to_compact = (intercept0 - y_cross) / compaction_rate read as an
    unsigned 64-bit number; nothing else is added or removed. *)
Theorem predict_compaction_scan (W MAX_ORDER : nat) (cfg : config)
    (clk : nat -> timespec) (frag_vec : list frag_info)
    (lsq : list lsq_struct) (high_wmark retval : Z) :
  let st := fit_orders W MAX_ORDER frag_vec lsq in
  fit_traps W MAX_ORDER frag_vec lsq = false ->
  fs_ready st = true ->
  reclaim_branch cfg (fs_m st !!! 0%nat) (free_pages (frag_vec !!! 0%nat))
    high_wmark 0 = Next retval ->
  compaction_rate cfg <> 0 ->
  (forall k, 0 <= tv_nsec (clk k) < 1000 /\ in_s64 (tv_sec (clk k) * 1000)) ->
  scan_in_range MAX_ORDER (fs_m st) (fs_c st) ->
  snd (predict W MAX_ORDER cfg clk frag_vec lsq high_wmark)
  = Returns
      (if some_crossing_triggers cfg clk (fs_m st) (fs_c st)
            (scan_candidates MAX_ORDER (fs_m st)) 0
       then Z.lor retval MEMPREDICT_COMPACT else retval).
Proof.
  intros st Ht Hrdy Hb Hrate Hclk Hrange. unfold predict. fold st.
  rewrite Ht, Hrdy. simpl. unfold decide_flags. rewrite Hb.
  apply (compact_scan_candidates cfg clk (fs_m st) (fs_c st) MAX_ORDER);
    [exact Hrate | exact Hclk | exact Hrange | lia].
Qed.

Lemma predict_compaction_scan_witness :
  snd (predict 2 2 (mk_config 1 1) (fun _ => mk_timespec 2 0)
         [mk_frag 1090 10; mk_frag 595 10]
         [lsq_after 2 [(1100, 0)]; lsq_after 2 [(595, 0)]] 0)
  = Returns (Z.lor 0 MEMPREDICT_COMPACT)
  /\ snd (predict 2 2 (mk_config 1 1) (fun _ => mk_timespec 1 0)
            [mk_frag 1090 10; mk_frag 595 10]
            [lsq_after 2 [(1100, 0)]; lsq_after 2 [(595, 0)]] 0)
     = Returns 0.
Proof.
  split.
  - rewrite (predict_compaction_scan 2 2 (mk_config 1 1)
               (fun _ => mk_timespec 2 0) [mk_frag 1090 10; mk_frag 595 10]
               [lsq_after 2 [(1100, 0)]; lsq_after 2 [(595, 0)]] 0 0).
    + vm_compute. reflexivity.
    + reflexivity.
    + reflexivity.
    + vm_compute. reflexivity.
    + discriminate.
    + intros k. unfold in_s64, half64. simpl. lia.
    + intros order Ho Hne. assert (order = 1%nat) as -> by lia.
      unfold in_s64. vm_compute.
      repeat split; first [intros H; discriminate H | reflexivity].
  - rewrite (predict_compaction_scan 2 2 (mk_config 1 1)
               (fun _ => mk_timespec 1 0) [mk_frag 1090 10; mk_frag 595 10]
               [lsq_after 2 [(1100, 0)]; lsq_after 2 [(595, 0)]] 0 0).
    + vm_compute. reflexivity.
    + reflexivity.
    + reflexivity.
    + vm_compute. reflexivity.
    + discriminate.
    + intros k. unfold in_s64, half64. simpl. lia.
    + intros order Ho Hne. assert (order = 1%nat) as -> by lia.
      unfold in_s64. vm_compute.
      repeat split; first [intros H; discriminate H | reflexivity].
Defined.

(** C8 (the code departs from it). The worked example, window length 3:
    the third call returns the slope -100 and the intercept 1090, not an
    intercept near 100; with reclaim rate 2 and high watermark 50 the
    order-0 block sets no flag, and [predict] returns the empty set. *)
Theorem worked_example (clk : nat -> timespec) (compaction : Z) :
  snd (observe_all 3 (lsq_init 3) [(100, 0); (90, 10); (80, 20)])
    = [None; None; Some (-100, 1090)]
  /\ least_squares_line 3 [(0, 100); (10, 90); (20, 80)]
     = Some (-100, 1090)
  /\ reclaim_branch (mk_config 2 compaction) (-100) 80 50 0 = Next 0
  /\ snd (predict 3 1 (mk_config 2 compaction) clk [mk_frag 80 20]
            [lsq_after 3 [(100, 0); (90, 10)]] 50) = Returns 0.
Proof. vm_compute. repeat split. Qed.

(** C10 (the code departs from it). Free pages fall by 2^30 every 25 ms:
    the fitted slope is -2^32, [abs] receives it converted to [int], which
    is 0, and the division by it in the order-0 block is a division by zero;
    with windows of two samples and one order, and with windows of eight
    samples and eleven orders. *)
Theorem truncated_slope_divides_by_zero (clk : nat -> timespec) :
  abs_int (- 2 ^ 32) = 0
  /\ (let frag_vec := [mk_frag (2 ^ 30) 25] in
      let lsq := [lsq_after 2 [(2 ^ 31, 0)]] in
      fs_ready (fit_orders 2 1 frag_vec lsq) = true
      /\ fs_m (fit_orders 2 1 frag_vec lsq) = [- 2 ^ 32]
      /\ snd (predict 2 1 (mk_config 1 1) clk frag_vec lsq 1000) = Traps)
  /\ (let frag_vec :=
        mk_frag (2 ^ 30) 175 :: replicate 10 (mk_frag 465 175) in
      let lsq := lsq_after 8 (line_samples 7 (2 ^ 33) (- 2 ^ 30) 0 25)
                 :: same_history 8 10 (line_samples 7 465 0 0 25) in
      fs_ready (fit_orders 8 11 frag_vec lsq) = true
      /\ fs_m (fit_orders 8 11 frag_vec lsq) = - 2 ^ 32 :: replicate 10 0
      /\ snd (predict 8 11 (mk_config 1 1) clk frag_vec lsq 1000) = Traps).
Proof. vm_compute. repeat split. Qed.

(** ** Sums over a window: the denominator and the numerator of the slope *)

Section Sums.

Lemma sum_with_cons {A : Type} (f : A -> Z) (a : A) (l : list A) :
  sum_with f (a :: l) = f a + sum_with f l.
Proof. reflexivity. Qed.

Lemma sum_with_nonneg {A : Type} (f : A -> Z) (l : list A) :
  Forall (fun a => 0 <= f a) l -> 0 <= sum_with f l.
Proof.
  induction 1 as [| a l Ha _ IH]; [reflexivity |].
  rewrite sum_with_cons. lia.
Qed.

Lemma sum_with_zero {A : Type} (f : A -> Z) (l : list A) :
  Forall (fun a => 0 <= f a) l -> sum_with f l = 0 ->
  Forall (fun a => f a = 0) l.
Proof.
  induction 1 as [| a l Ha Hl IH]; intros Hs; [constructor |].
  rewrite sum_with_cons in Hs.
  pose proof (sum_with_nonneg f l Hl).
  constructor; [lia | apply IH; lia].
Qed.

Lemma sum_with_all_zero {A : Type} (f : A -> Z) (l : list A) :
  Forall (fun a => f a = 0) l -> sum_with f l = 0.
Proof.
  induction 1 as [| a l Ha _ IH]; [reflexivity |].
  rewrite sum_with_cons. lia.
Qed.

(** Squared distances to a point, and products of distances, in terms of
    the four sums. *)
Lemma sum_sq_dev (a : Z) (l : list (Z * Z)) :
  sum_with (fun q => (fst q - a) * (fst q - a)) l
  = Sxx l - 2 * a * Sx l + Z.of_nat (length l) * a * a.
Proof.
  unfold Sxx, Sx. induction l as [| q l IH].
  - simpl. ring.
  - rewrite !sum_with_cons, IH. simpl length. rewrite Nat2Z.inj_succ. ring.
Qed.

Lemma sum_prod_dev (a b : Z) (l : list (Z * Z)) :
  sum_with (fun q => (fst q - a) * (snd q - b)) l
  = Sxy l - b * Sx l - a * Sy l + Z.of_nat (length l) * a * b.
Proof.
  unfold Sxy, Sx, Sy. induction l as [| q l IH].
  - simpl. ring.
  - rewrite !sum_with_cons, IH. simpl length. rewrite Nat2Z.inj_succ. ring.
Qed.

Lemma slope_denominator_cons (p : Z * Z) (l : list (Z * Z)) :
  slope_denominator (Z.of_nat (S (length l))) (p :: l)
  = slope_denominator (Z.of_nat (length l)) l
    + sum_with (fun q => (fst q - fst p) * (fst q - fst p)) l.
Proof.
  rewrite sum_sq_dev. unfold slope_denominator, Sxx, Sx.
  rewrite !sum_with_cons, Nat2Z.inj_succ. ring.
Qed.

Lemma slope_numerator_cons (p : Z * Z) (l : list (Z * Z)) :
  slope_numerator (Z.of_nat (S (length l))) (p :: l)
  = slope_numerator (Z.of_nat (length l)) l
    + sum_with (fun q => (fst q - fst p) * (snd q - snd p)) l.
Proof.
  rewrite sum_prod_dev. unfold slope_numerator, Sxy, Sx, Sy.
  rewrite !sum_with_cons, Nat2Z.inj_succ. ring.
Qed.

Lemma slope_denominator_nonneg (l : list (Z * Z)) :
  0 <= slope_denominator (Z.of_nat (length l)) l.
Proof.
  induction l as [| p l IH].
  - reflexivity.
  - simpl length. rewrite slope_denominator_cons.
    assert (0 <= sum_with (fun q => (fst q - fst p) * (fst q - fst p)) l).
    { apply sum_with_nonneg, Forall_forall. intros q _.
      apply Z.square_nonneg. }
    lia.
Qed.

(** The denominator vanishes exactly when all the times are one time. *)
Lemma slope_denominator_zero (l : list (Z * Z)) :
  slope_denominator (Z.of_nat (length l)) l = 0 <->
  forall p q, p ∈ l -> q ∈ l -> fst p = fst q.
Proof.
  induction l as [| p l IH].
  - split; [| reflexivity]. intros _ p q Hp. inversion Hp.
  - simpl length. rewrite slope_denominator_cons.
    pose proof (slope_denominator_nonneg l) as Hd.
    assert (Hnn : Forall (fun q => 0 <= (fst q - fst p) * (fst q - fst p)) l).
    { apply Forall_forall. intros q _. apply Z.square_nonneg. }
    pose proof (sum_with_nonneg _ l Hnn) as Hs.
    split.
    + intros H0.
      assert (Hd0 : slope_denominator (Z.of_nat (length l)) l = 0) by lia.
      assert (Hs0 : sum_with (fun q => (fst q - fst p) * (fst q - fst p)) l
                    = 0) by lia.
      pose proof (sum_with_zero _ l Hnn Hs0) as Hall.
      rewrite Forall_forall in Hall.
      assert (Hp : forall q, q ∈ p :: l -> fst q = fst p).
      { intros q Hq. apply elem_of_cons in Hq. destruct Hq as [-> | Hq];
          [reflexivity |].
        specialize (Hall q Hq). simpl in Hall. nia. }
      intros q1 q2 H1 H2. rewrite (Hp q1 H1), (Hp q2 H2). reflexivity.
    + intros Heq.
      assert (Hd0 : slope_denominator (Z.of_nat (length l)) l = 0).
      { apply IH. intros q1 q2 H1 H2.
        apply Heq; apply elem_of_cons; right; assumption. }
      assert (Hs0 : sum_with (fun q => (fst q - fst p) * (fst q - fst p)) l
                    = 0).
      { apply sum_with_all_zero, Forall_forall. intros q Hq. simpl.
        rewrite (Heq q p); [ring | right; exact Hq | left]. }
      lia.
Qed.

Lemma slope_numerator_concordant (l : list (Z * Z)) :
  concordant l -> 0 <= slope_numerator (Z.of_nat (length l)) l.
Proof.
  induction l as [| p l IH]; intros Hc.
  - reflexivity.
  - simpl length. rewrite slope_numerator_cons.
    assert (0 <= slope_numerator (Z.of_nat (length l)) l).
    { apply IH. intros q1 q2 H1 H2. apply Hc; right; assumption. }
    assert (0 <= sum_with (fun q => (fst q - fst p) * (snd q - snd p)) l).
    { apply sum_with_nonneg, Forall_forall. intros q Hq.
      apply Hc; [left | right; exact Hq]. }
    lia.
Qed.

Lemma on_line_sums (a b : Z) (l : list (Z * Z)) :
  on_line a b l ->
  Sy l = Z.of_nat (length l) * a + b * Sx l
  /\ Sxy l = a * Sx l + b * Sxx l.
Proof.
  unfold on_line, Sy, Sxy, Sx, Sxx.
  induction 1 as [| p l Hp _ [IH1 IH2]].
  - simpl. split; ring.
  - rewrite !sum_with_cons, IH1, IH2, Hp. simpl length.
    rewrite Nat2Z.inj_succ. split; ring.
Qed.

Lemma on_line_numerator (a b : Z) (l : list (Z * Z)) :
  on_line a b l ->
  slope_numerator (Z.of_nat (length l)) l
  = b * slope_denominator (Z.of_nat (length l)) l.
Proof.
  intros H. destruct (on_line_sums a b l H) as [Hy Hxy].
  unfold slope_numerator, slope_denominator. rewrite Hy, Hxy. ring.
Qed.

End Sums.

(** ** The fit on degenerate, rising and straight windows *)

Section FitShape.

Variable W : nat.

Lemma translated_points_window (lsq : lsq_struct) :
  translated_points lsq
  = prod_map (fun xi => xi - x_offset_of lsq) id <$> window lsq.
Proof.
  unfold translated_points, window.
  rewrite prod_map_zip, list_fmap_id. reflexivity.
Qed.

Lemma translated_points_times (lsq : lsq_struct) :
  (length (x lsq) <= length (y lsq))%nat ->
  fst <$> translated_points lsq
  = (fun xi => xi - x_offset_of lsq) <$> x lsq.
Proof.
  intros Hl. unfold translated_points. apply fst_zip.
  rewrite length_fmap. exact Hl.
Qed.

Lemma concordant_translated (lsq : lsq_struct) :
  concordant (window lsq) -> concordant (translated_points lsq).
Proof.
  intros Hc p q Hp Hq. rewrite translated_points_window in Hp, Hq.
  apply list_elem_of_fmap_1 in Hp. destruct Hp as ([px py] & -> & Hp).
  apply list_elem_of_fmap_1 in Hq. destruct Hq as ([qx qy] & -> & Hq).
  specialize (Hc _ _ Hp Hq). simpl in *.
  replace (qx - x_offset_of lsq - (px - x_offset_of lsq)) with (qx - px)
    by ring.
  exact Hc.
Qed.

(** All the translated times are one time exactly when all the stored
    times are. *)
Lemma one_time_translated (lsq : lsq_struct) :
  (length (x lsq) <= length (y lsq))%nat ->
  (forall p q, p ∈ translated_points lsq -> q ∈ translated_points lsq ->
     fst p = fst q)
  <-> (forall t1 t2, t1 ∈ x lsq -> t2 ∈ x lsq -> t1 = t2).
Proof.
  intros Hl. pose proof (translated_points_times lsq Hl) as Ht. split.
  - intros H t1 t2 H1 H2.
    assert (Hin : forall t, t ∈ x lsq ->
              exists p, p ∈ translated_points lsq
                        /\ fst p = t - x_offset_of lsq).
    { intros t Hin.
      apply (list_elem_of_fmap_2 (fun xi => xi - x_offset_of lsq)) in Hin.
      rewrite <- Ht in Hin. apply list_elem_of_fmap_1 in Hin.
      destruct Hin as (p & Hp & Hpin). exists p. split; [exact Hpin | auto]. }
    destruct (Hin t1 H1) as (p & Hp & Ep).
    destruct (Hin t2 H2) as (q & Hq & Eq).
    specialize (H p q Hp Hq). lia.
  - intros H p q Hp Hq.
    assert (Hin : forall r, r ∈ translated_points lsq ->
              exists t, t ∈ x lsq /\ fst r = t - x_offset_of lsq).
    { intros r Hr. apply (list_elem_of_fmap_2 fst) in Hr.
      rewrite Ht in Hr. apply list_elem_of_fmap_1 in Hr.
      destruct Hr as (t & Hr & Htin). exists t. split; assumption. }
    destruct (Hin p Hp) as (t1 & H1 & ->).
    destruct (Hin q Hq) as (t2 & H2 & ->).
    rewrite (H t1 t2 H1 H2). reflexivity.
Qed.

(** The divisor that [lsq_line] tests is the exact denominator, reduced to
    64 bits. *)
Lemma lsq_line_none (lsq : lsq_struct) :
  in_s64 (slope_denominator (Z.of_nat W) (translated_points lsq)) ->
  snd (lsq_line W lsq) = None
  <-> slope_denominator (Z.of_nat W) (translated_points lsq) = 0.
Proof.
  intros HD. unfold lsq_line.
  pose proof (lsq_sums_eqm (x_offset_of lsq) (x lsq) (y lsq)
                (mk_sigmas 0 0 0 0)) as Hs.
  simpl in Hs. fold (translated_points lsq) in Hs.
  set (pts := translated_points lsq) in *.
  set (s := lsq_sums _ _ _) in *.
  destruct Hs as (Hx & _ & _ & Hxx).
  rewrite Z.add_0_l in Hx, Hxx.
  assert (ED : (Z.of_nat W *! sigma_xx s) -! (sigma_x s *! sigma_x s)
               = slope_denominator (Z.of_nat W) pts).
  { apply wrap64_of_eqm; [| exact HD].
    unfold mul64. rewrite !wrap64_eqm, Hx, Hxx. reflexivity. }
  rewrite ED.
  destruct (Z.eqb_spec (slope_denominator (Z.of_nat W) pts) 0) as [E | E];
    simpl; split; intros H; try assumption; try reflexivity;
    try discriminate; contradiction.
Qed.

End FitShape.

(** X1. On a full, well-formed window whose denominator fits 64 bits,
    [lsq_fit] takes the [return -1] of its divide-by-zero guard exactly
    when all the times in the window are the same time. *)
Theorem no_line_iff_one_time (W : nat) (lsq : lsq_struct) (new_y new_x : Z) :
  lsq_wf W lsq ->
  ready (lsq_insert W lsq new_y new_x) = true ->
  in_s64 (slope_denominator (Z.of_nat W)
            (translated_points (lsq_insert W lsq new_y new_x))) ->
  snd (lsq_fit W lsq new_y new_x) = None
  <-> (forall t1 t2,
         t1 ∈ x (lsq_insert W lsq new_y new_x) ->
         t2 ∈ x (lsq_insert W lsq new_y new_x) -> t1 = t2).
Proof.
  intros (Hn & Hx & Hy) Hr HD.
  set (lsq1 := lsq_insert W lsq new_y new_x) in *.
  assert (Hx1 : length (x lsq1) = W)
    by (unfold lsq1, lsq_insert; simpl; rewrite length_insert; exact Hx).
  assert (Hy1 : length (y lsq1) = W)
    by (unfold lsq1, lsq_insert; simpl; rewrite length_insert; exact Hy).
  assert (Hlen : length (translated_points lsq1) = W).
  { unfold translated_points. rewrite length_zip, length_fmap. lia. }
  unfold lsq_fit. fold lsq1. rewrite Hr. simpl negb. cbv iota.
  rewrite (lsq_line_none W lsq1 HD).
  rewrite <- Hlen at 1. rewrite slope_denominator_zero.
  apply one_time_translated. lia.
Qed.

Lemma no_line_iff_one_time_witness :
  snd (lsq_fit 3 (lsq_after 3 [(100, 7); (90, 7)]) 80 7) = None
  <-> (forall t1 t2,
         t1 ∈ x (lsq_insert 3 (lsq_after 3 [(100, 7); (90, 7)]) 80 7) ->
         t2 ∈ x (lsq_insert 3 (lsq_after 3 [(100, 7); (90, 7)]) 80 7) ->
         t1 = t2).
Proof.
  apply (no_line_iff_one_time 3 (lsq_after 3 [(100, 7); (90, 7)]) 80 7).
  - unfold lsq_wf. simpl. repeat split. lia.
  - reflexivity.
  - unfold in_s64. vm_compute. split; [intros H; discriminate H | reflexivity].
Defined.

Section FitSign.

Variable W : nat.
Variable lsq : lsq_struct.

Hypothesis Hwf : lsq_wf W lsq.

Lemma wf_translated_length :
  length (translated_points lsq) = W.
Proof.
  destruct Hwf as (_ & Hx & Hy). unfold translated_points.
  rewrite length_zip, length_fmap. lia.
Qed.

Lemma two_times_denominator_pos :
  (exists t1 t2, t1 ∈ x lsq /\ t2 ∈ x lsq /\ t1 <> t2) ->
  0 < slope_denominator (Z.of_nat W) (translated_points lsq).
Proof.
  intros (t1 & t2 & H1 & H2 & Hne).
  pose proof (slope_denominator_nonneg (translated_points lsq)) as Hnn.
  rewrite wf_translated_length in Hnn.
  assert (Hz : slope_denominator (Z.of_nat W) (translated_points lsq) <> 0).
  { intros H0. apply Hne.
    rewrite <- wf_translated_length in H0 at 1.
    rewrite slope_denominator_zero in H0.
    destruct Hwf as (_ & Hx & Hy).
    apply (proj1 (one_time_translated lsq ltac:(lia)) H0); assumption. }
  lia.
Qed.

(** On a window whose denominator fits 64 bits, the divisor of line 101 is
    the exact denominator, which is not negative: it is never -1, and the
    machine carries out the division. *)
Lemma lsq_line_divisor_nonneg :
  in_s64 (slope_denominator (Z.of_nat W) (translated_points lsq)) ->
  let s := lsq_sums (translate (x_offset_of lsq) (x lsq)) (y lsq)
             (mk_sigmas 0 0 0 0) in
  0 <= (Z.of_nat W *! sigma_xx s) -! (sigma_x s *! sigma_x s).
Proof.
  intros HD.
  pose proof (lsq_sums_eqm (x_offset_of lsq) (x lsq) (y lsq)
                (mk_sigmas 0 0 0 0)) as Hs.
  simpl in Hs. fold (translated_points lsq) in Hs.
  set (pts := translated_points lsq) in *.
  set (s := lsq_sums _ _ _) in *.
  destruct Hs as (Hx & _ & _ & Hxx).
  rewrite Z.add_0_l in Hx, Hxx.
  assert (ED : (Z.of_nat W *! sigma_xx s) -! (sigma_x s *! sigma_x s)
               = slope_denominator (Z.of_nat W) pts).
  { apply wrap64_of_eqm; [| exact HD].
    unfold mul64. rewrite !wrap64_eqm, Hx, Hxx. reflexivity. }
  simpl. rewrite ED.
  pose proof (slope_denominator_nonneg pts) as Hnn.
  unfold pts in Hnn at 1. rewrite wf_translated_length in Hnn. exact Hnn.
Qed.

(** So a call on a well-formed window whose denominator fits 64 bits
    returns. *)
Lemma lsq_line_traps_in_range :
  in_s64 (slope_denominator (Z.of_nat W) (translated_points lsq)) ->
  lsq_line_traps W lsq = false.
Proof.
  intros HD. pose proof (lsq_line_divisor_nonneg HD) as Hnn.
  simpl in Hnn. unfold lsq_line_traps.
  set (D := (Z.of_nat W *! _) -! _) in *.
  destruct (Z.eqb_spec D 0) as [_ | HD0]; [reflexivity |].
  assert (HW : 0 < Z.of_nat W) by (destruct Hwf as (Hn & _); lia).
  unfold sdiv64 at 1.
  destruct (Z.eqb_spec D 0) as [E | _]; [contradiction |].
  destruct (Z.eqb_spec D (-1)) as [E | _]; [lia |].
  rewrite andb_false_r. simpl.
  unfold sdiv64.
  destruct (Z.eqb_spec (Z.of_nat W) 0) as [E | _]; [lia |].
  destruct (Z.eqb_spec (Z.of_nat W) (-1)) as [E | _]; [lia |].
  rewrite andb_false_r. reflexivity.
Qed.

End FitSign.

(** X2. On a full, well-formed window, free of overflow, that holds two
    different times and in which the value never falls as time advances,
    [lsq_fit] returns a line whose slope is not negative. *)
Theorem rising_window_slope_nonneg (W : nat) (lsq : lsq_struct)
    (new_y new_x : Z) :
  lsq_wf W lsq ->
  ready (lsq_insert W lsq new_y new_x) = true ->
  no_overflow (Z.of_nat W)
    (translated_points (lsq_insert W lsq new_y new_x)) ->
  concordant (window (lsq_insert W lsq new_y new_x)) ->
  (exists t1 t2, t1 ∈ x (lsq_insert W lsq new_y new_x)
                 /\ t2 ∈ x (lsq_insert W lsq new_y new_x) /\ t1 <> t2) ->
  exists m c, snd (lsq_fit W lsq new_y new_x) = Some (m, c) /\ 0 <= m.
Proof.
  intros Hwf Hr Hno Hc Htwo.
  set (lsq1 := lsq_insert W lsq new_y new_x) in *.
  assert (Hwf1 : lsq_wf W lsq1).
  { destruct Hwf as (Hn & Hx & Hy). unfold lsq_wf, lsq1, lsq_insert. simpl.
    rewrite !length_insert. repeat split; try assumption.
    case_bool_decide; lia. }
  pose proof (two_times_denominator_pos W lsq1 Hwf1 Htwo) as HD.
  pose proof (slope_numerator_concordant _ (concordant_translated _ Hc))
    as HN.
  rewrite (wf_translated_length W lsq1 Hwf1) in HN.
  unfold lsq_fit. fold lsq1. rewrite Hr. simpl negb. cbv iota.
  rewrite (lsq_line_least_squares W lsq1 Hno). unfold least_squares_line.
  destruct (Z.eqb_spec (slope_denominator (Z.of_nat W)
                          (translated_points lsq1)) 0) as [E | _]; [lia |].
  eexists _, _. split; [reflexivity |].
  unfold spec_slope. apply Z.quot_pos; lia.
Qed.

Lemma rising_window_slope_nonneg_witness :
  exists m c,
    snd (lsq_fit 3 (lsq_after 3 [(100, 0); (110, 10)]) 110 20) = Some (m, c)
    /\ 0 <= m.
Proof.
  apply (rising_window_slope_nonneg 3 (lsq_after 3 [(100, 0); (110, 10)])
           110 20).
  - unfold lsq_wf. simpl. repeat split. lia.
  - reflexivity.
  - unfold no_overflow, in_s64. vm_compute.
    repeat split; first [intros H; discriminate H | reflexivity].
  - intros p q Hp Hq. simpl in Hp, Hq.
    repeat (apply elem_of_cons in Hp; destruct Hp as [-> | Hp]);
      repeat (apply elem_of_cons in Hq; destruct Hq as [-> | Hq]);
      try (inversion Hp; fail); try (inversion Hq; fail); simpl; lia.
  - exists 0, 10. simpl. repeat split; [left | right; left | lia].
Defined.

(** X3. On a full, well-formed window, free of overflow, that holds two
    different times and whose samples lie on the straight line of integer
    slope b through the value a at the oldest time, [lsq_fit] returns the
    slope 100 * b exactly, and the intercept (W * a - 99 * b * Sx) / W,
    Sx being the sum of the translated times. *)
Theorem straight_window_line (W : nat) (lsq : lsq_struct)
    (new_y new_x a b : Z) :
  lsq_wf W lsq ->
  ready (lsq_insert W lsq new_y new_x) = true ->
  no_overflow (Z.of_nat W)
    (translated_points (lsq_insert W lsq new_y new_x)) ->
  on_line a b (translated_points (lsq_insert W lsq new_y new_x)) ->
  (exists t1 t2, t1 ∈ x (lsq_insert W lsq new_y new_x)
                 /\ t2 ∈ x (lsq_insert W lsq new_y new_x) /\ t1 <> t2) ->
  snd (lsq_fit W lsq new_y new_x)
  = Some (100 * b,
          Z.quot (Z.of_nat W * a
                  - 99 * b * Sx (translated_points
                                   (lsq_insert W lsq new_y new_x)))
                 (Z.of_nat W)).
Proof.
  intros Hwf Hr Hno Hline Htwo.
  set (lsq1 := lsq_insert W lsq new_y new_x) in *.
  assert (Hwf1 : lsq_wf W lsq1).
  { destruct Hwf as (Hn & Hx & Hy). unfold lsq_wf, lsq1, lsq_insert. simpl.
    rewrite !length_insert. repeat split; try assumption.
    case_bool_decide; lia. }
  pose proof (two_times_denominator_pos W lsq1 Hwf1 Htwo) as HD.
  pose proof (on_line_numerator a b _ Hline) as HN.
  destruct (on_line_sums a b _ Hline) as [Hsy _].
  rewrite (wf_translated_length W lsq1 Hwf1) in HN, Hsy.
  unfold lsq_fit. fold lsq1. rewrite Hr. simpl negb. cbv iota.
  rewrite (lsq_line_least_squares W lsq1 Hno). unfold least_squares_line.
  destruct (Z.eqb_spec (slope_denominator (Z.of_nat W)
                          (translated_points lsq1)) 0) as [E | _]; [lia |].
  assert (Hm : spec_slope (Z.of_nat W) (translated_points lsq1) = 100 * b).
  { unfold spec_slope. rewrite HN.
    replace (b * slope_denominator (Z.of_nat W) (translated_points lsq1)
             * 100)
      with (100 * b * slope_denominator (Z.of_nat W)
                        (translated_points lsq1)) by ring.
    apply Z.quot_mul. lia. }
  unfold spec_intercept. rewrite Hm, Hsy. do 3 f_equal. ring.
Qed.

Lemma straight_window_line_witness :
  snd (lsq_fit 3 (lsq_after 3 [(100, 0); (90, 10)]) 80 20)
  = Some (100 * -1, Z.quot (3 * 100 - 99 * -1 * 30) 3).
Proof.
  apply (straight_window_line 3 (lsq_after 3 [(100, 0); (90, 10)]) 80 20
           100 (-1)).
  - unfold lsq_wf. simpl. repeat split. lia.
  - reflexivity.
  - unfold no_overflow, in_s64. vm_compute.
    repeat split; first [intros H; discriminate H | reflexivity].
  - unfold on_line. simpl. repeat constructor.
  - exists 0, 10. simpl. repeat split; [left | right; left | lia].
Defined.

(** ** The window as a ring: cursor and contents over a run of calls *)

Section Cursor.

Variable W : nat.

Lemma lsq_insert_next_mod (lsq : lsq_struct) (vy vx : Z) :
  (next lsq < W)%nat ->
  next (lsq_insert W lsq vy vx) = (S (next lsq) mod W)%nat.
Proof.
  intros Hn. unfold lsq_insert. simpl. case_bool_decide as Hw.
  - rewrite Hw, Nat.Div0.mod_same. reflexivity.
  - rewrite Nat.mod_small by lia. reflexivity.
Qed.

Lemma observe_all_next (obs : list (Z * Z)) (lsq : lsq_struct) :
  (next lsq < W)%nat ->
  next (fst (observe_all W lsq obs)) = ((next lsq + length obs) mod W)%nat.
Proof.
  revert lsq. induction obs as [| [vy vx] obs IH]; intros lsq Hn.
  - simpl. rewrite Nat.add_0_r, Nat.mod_small by exact Hn. reflexivity.
  - rewrite observe_all_cons. simpl fst. rewrite IH.
    + rewrite lsq_fit_next, lsq_insert_next_mod by exact Hn.
      rewrite Nat.Div0.add_mod_idemp_l. f_equal. simpl. lia.
    + rewrite lsq_fit_next, lsq_insert_next_mod by exact Hn.
      apply Nat.mod_upper_bound. lia.
Qed.

(** Two slots less than a full turn apart are different slots. *)
Lemma ring_slots_differ (k d : nat) :
  (k < W)%nat -> (0 < d < W)%nat -> ((k + d) mod W)%nat <> k.
Proof.
  intros Hk Hd H.
  destruct (Nat.lt_ge_cases (k + d) W) as [Hlt | Hge].
  - rewrite Nat.mod_small in H by exact Hlt. lia.
  - assert (E : ((k + d) mod W = k + d - W)%nat).
    { symmetry. apply (Nat.mod_unique _ _ 1); lia. }
    lia.
Qed.

(** The contents of one array of the structure over a run: [f] is the
    array, [g] picks the component of a sample that goes into it, and [ok]
    is whatever the run must satisfy for each call to leave the array with
    the new sample stored and nothing else changed. *)
Variable f : lsq_struct -> list Z.
Variable g : Z * Z -> Z.
Variable ok : lsq_struct -> list (Z * Z) -> Prop.

Hypothesis ok_step : forall lsq vy vx obs,
  ok lsq ((vy, vx) :: obs) ->
  f (fst (lsq_fit W lsq vy vx)) = <[next lsq := g (vy, vx)]> (f lsq)
  /\ ok (fst (lsq_fit W lsq vy vx)) obs.

Lemma ring_slot_untouched (obs : list (Z * Z)) (lsq : lsq_struct) (p : nat) :
  (next lsq < W)%nat -> ok lsq obs ->
  (forall j, (j < length obs)%nat -> ((next lsq + j) mod W)%nat <> p) ->
  f (fst (observe_all W lsq obs)) !! p = f lsq !! p.
Proof.
  revert lsq. induction obs as [| [vy vx] obs IH]; intros lsq Hn Hok Hp.
  - reflexivity.
  - rewrite observe_all_cons. simpl fst.
    destruct (ok_step _ _ _ _ Hok) as [Hf Hok'].
    rewrite IH.
    + rewrite Hf. apply list_lookup_insert_ne.
      specialize (Hp 0%nat ltac:(simpl; lia)).
      rewrite Nat.add_0_r, Nat.mod_small in Hp by exact Hn. exact Hp.
    + rewrite lsq_fit_next, lsq_insert_next_mod by exact Hn.
      apply Nat.mod_upper_bound. lia.
    + exact Hok'.
    + intros j Hj. rewrite lsq_fit_next, lsq_insert_next_mod by exact Hn.
      rewrite Nat.Div0.add_mod_idemp_l.
      replace (S (next lsq) + j)%nat with (next lsq + S j)%nat by lia.
      apply Hp. simpl. lia.
Qed.

Lemma ring_slot_holds (obs : list (Z * Z)) (lsq : lsq_struct) (i : nat) :
  (next lsq < W)%nat -> length (f lsq) = W -> ok lsq obs ->
  (i < length obs)%nat -> (length obs <= i + W)%nat ->
  f (fst (observe_all W lsq obs)) !! ((next lsq + i) mod W)%nat
  = g <$> obs !! i.
Proof.
  revert lsq i. induction obs as [| [vy vx] obs IH];
    intros lsq i Hn Hl Hok Hi Hlen.
  - simpl in Hi. lia.
  - rewrite observe_all_cons. simpl fst.
    destruct (ok_step _ _ _ _ Hok) as [Hf Hok'].
    assert (Hn' : (next (fst (lsq_fit W lsq vy vx)) < W)%nat).
    { rewrite lsq_fit_next, lsq_insert_next_mod by exact Hn.
      apply Nat.mod_upper_bound. lia. }
    destruct i as [| i].
    + rewrite Nat.add_0_r, Nat.mod_small by exact Hn.
      rewrite ring_slot_untouched.
      * rewrite Hf. simpl. apply list_lookup_insert_eq. lia.
      * exact Hn'.
      * exact Hok'.
      * intros j Hj. rewrite lsq_fit_next, lsq_insert_next_mod by exact Hn.
        rewrite Nat.Div0.add_mod_idemp_l.
        replace (S (next lsq) + j)%nat with (next lsq + S j)%nat by lia.
        apply ring_slots_differ; [exact Hn |]. simpl in Hlen. lia.
    + simpl lookup.
      replace ((next lsq + S i) mod W)%nat
        with ((next (fst (lsq_fit W lsq vy vx)) + i) mod W)%nat.
      * apply IH.
        -- exact Hn'.
        -- rewrite Hf, length_insert. exact Hl.
        -- exact Hok'.
        -- simpl in Hi. lia.
        -- simpl in Hlen. lia.
      * rewrite lsq_fit_next, lsq_insert_next_mod by exact Hn.
        rewrite Nat.Div0.add_mod_idemp_l. f_equal. lia.
Qed.

End Cursor.

Section RingContents.

Variable W : nat.

Lemma with_x_same (lsq : lsq_struct) : with_x lsq (x lsq) = lsq.
Proof. destruct lsq. reflexivity. Qed.

(** A call that does not end at the divide-by-zero guard leaves the
    structure as the insertion made it. *)
Lemma lsq_fit_state_fitted (lsq : lsq_struct) (vy vx : Z) :
  Forall in_s64 (x lsq) -> in_s64 vx ->
  (ready (lsq_insert W lsq vy vx) = true ->
   snd (lsq_fit W lsq vy vx) <> None) ->
  fst (lsq_fit W lsq vy vx) = lsq_insert W lsq vy vx.
Proof.
  intros Hxs Hvx Hfit. unfold lsq_fit in *.
  destruct (ready (lsq_insert W lsq vy vx)) eqn:Hr; simpl negb in *;
    cbv iota in *; [| reflexivity].
  specialize (Hfit eq_refl). unfold lsq_line in *.
  destruct (_ =? 0); [contradiction |]. simpl.
  rewrite restore_translate.
  - apply with_x_same.
  - unfold lsq_insert. simpl. apply Forall_insert; assumption.
Qed.

Lemma fitted_run_step (lsq : lsq_struct) (vy vx : Z) (obs : list (Z * Z)) :
  Forall in_s64 (x lsq) /\ fitted_run W lsq ((vy, vx) :: obs) ->
  x (fst (lsq_fit W lsq vy vx)) = <[next lsq := snd (vy, vx)]> (x lsq)
  /\ Forall in_s64 (x (fst (lsq_fit W lsq vy vx)))
     /\ fitted_run W (fst (lsq_fit W lsq vy vx)) obs.
Proof.
  intros (Hxs & Hvx & Hfit & Hrest).
  assert (E : x (fst (lsq_fit W lsq vy vx)) = <[next lsq := vx]> (x lsq)).
  { rewrite (lsq_fit_state_fitted lsq vy vx Hxs Hvx Hfit). reflexivity. }
  split; [exact E | split; [| exact Hrest]].
  rewrite E. apply Forall_insert; assumption.
Qed.

Lemma values_step (lsq : lsq_struct) (vy vx : Z) (obs : list (Z * Z)) :
  True ->
  y (fst (lsq_fit W lsq vy vx)) = <[next lsq := fst (vy, vx)]> (y lsq)
  /\ True.
Proof. intros _. split; [apply lsq_fit_y | exact I]. Qed.

End RingContents.

(** X4. Starting from a fresh estimator, after any run of calls the cursor
    is the number of samples seen modulo the window length, it lies inside
    the two arrays, and the arrays still have the window length. *)
Theorem cursor_counts_modulo (W : nat) (obs : list (Z * Z)) :
  (0 < W)%nat ->
  lsq_wf W (lsq_after W obs)
  /\ next (lsq_after W obs) = (length obs mod W)%nat.
Proof.
  intros HW. split.
  - apply observe_all_wf, lsq_init_wf, HW.
  - unfold lsq_after. rewrite observe_all_next by (simpl; exact HW).
    reflexivity.
Qed.

Lemma cursor_counts_modulo_witness :
  next (lsq_after 3 [(100, 0); (90, 10); (80, 20); (70, 30)]) = 1%nat.
Proof.
  destruct (cursor_counts_modulo 3 [(100, 0); (90, 10); (80, 20); (70, 30)])
    as [_ H]; [lia |].
  exact H.
Defined.

(** X5. Starting from a fresh estimator, after any run of calls the value
    array holds the latest W values: the value of the i-th sample, for
    every i among the last W, sits in slot i mod W. *)
Theorem window_keeps_latest_values (W : nat) (obs : list (Z * Z)) (i : nat) :
  (0 < W)%nat -> (i < length obs)%nat -> (length obs <= i + W)%nat ->
  y (lsq_after W obs) !! (i mod W)%nat = fst <$> obs !! i.
Proof.
  intros HW Hi Hlen. unfold lsq_after.
  apply (ring_slot_holds W y fst (fun _ _ => True) (values_step W)
           obs (lsq_init W) i); simpl; try assumption; try exact I.
  apply length_replicate.
Qed.

Lemma window_keeps_latest_values_witness :
  y (lsq_after 3 [(100, 0); (90, 10); (80, 20); (70, 30)]) !! (3 mod 3)%nat
  = Some 70.
Proof.
  apply (window_keeps_latest_values 3
           [(100, 0); (90, 10); (80, 20); (70, 30)] 3); simpl; lia.
Defined.

(** X6. Starting from a fresh estimator, as long as every time fits 64 bits
    and no call has ended at the divide-by-zero guard, the time array holds
    the latest W times: the time of the i-th sample, for every i among the
    last W, sits in slot i mod W, untranslated. *)
Theorem window_keeps_latest_times (W : nat) (obs : list (Z * Z)) (i : nat) :
  (0 < W)%nat -> fitted_run W (lsq_init W) obs ->
  (i < length obs)%nat -> (length obs <= i + W)%nat ->
  x (lsq_after W obs) !! (i mod W)%nat = snd <$> obs !! i.
Proof.
  intros HW Hrun Hi Hlen. unfold lsq_after.
  apply (ring_slot_holds W x snd
           (fun lsq obs => Forall in_s64 (x lsq) /\ fitted_run W lsq obs)
           (fitted_run_step W) obs (lsq_init W) i); simpl; try assumption.
  - apply length_replicate.
  - split; [| exact Hrun]. apply Forall_replicate.
    unfold in_s64, half64. lia.
Qed.

Lemma window_keeps_latest_times_witness :
  x (lsq_after 3 [(100, 0); (90, 10); (80, 20); (70, 30)]) !! (3 mod 3)%nat
  = Some 30.
Proof.
  apply (window_keeps_latest_times 3
           [(100, 0); (90, 10); (80, 20); (70, 30)] 3).
  - lia.
  - unfold in_s64. vm_compute. repeat split; intros; congruence.
  - simpl. lia.
  - simpl. lia.
Defined.

(** X7. A call of [lsq_fit] that returns -1 because the window is not yet
    full, or that returns a line, leaves the structure exactly as the
    insertion of the new sample made it (64-bit times): cursor advanced,
    ready flag as set, the new sample stored, every other stored time and
    value as before. *)
Theorem fit_only_inserts (W : nat) (lsq : lsq_struct) (new_y new_x : Z) :
  Forall in_s64 (x lsq) -> in_s64 new_x ->
  (ready (lsq_insert W lsq new_y new_x) = true ->
   snd (lsq_fit W lsq new_y new_x) <> None) ->
  fst (lsq_fit W lsq new_y new_x)
  = {| next := if bool_decide (S (next lsq) = W) then 0%nat
               else S (next lsq);
       ready := if bool_decide (S (next lsq) = W) then true else ready lsq;
       x := <[next lsq := new_x]> (x lsq);
       y := <[next lsq := new_y]> (y lsq) |}.
Proof.
  intros Hxs Hvx Hfit.
  rewrite (lsq_fit_state_fitted W lsq new_y new_x Hxs Hvx Hfit).
  reflexivity.
Qed.

Lemma fit_only_inserts_witness :
  fst (lsq_fit 3 (lsq_after 3 [(100, 0); (90, 10)]) 80 20)
  = {| next := 0; ready := true; x := [0; 10; 20]; y := [100; 90; 80] |}.
Proof.
  rewrite (fit_only_inserts 3 (lsq_after 3 [(100, 0); (90, 10)]) 80 20).
  - reflexivity.
  - simpl. repeat constructor; unfold in_s64, half64; lia.
  - unfold in_s64, half64. lia.
  - intros _. vm_compute. discriminate.
Defined.

(** ** The first loop of [predict]: what it leaves in the estimators and in
    [m], [c] and [is_ready] *)

Section FitLoopEffect.

Variable W : nat.
Variable frag_vec : list frag_info.

Lemma fit_order_lsq (order : nat) (st : fit_state) :
  fs_lsq (fit_order W frag_vec order st)
  = <[order := fst (fit_call W frag_vec (fs_lsq st) order)]> (fs_lsq st).
Proof.
  unfold fit_order, fit_call.
  destruct (lsq_fit W _ _ _) as [l1 [[mv cv] |]]; reflexivity.
Qed.

Lemma fit_call_ext (l1 l2 : list lsq_struct) (order : nat) :
  l1 !!! order = l2 !!! order ->
  fit_call W frag_vec l1 order = fit_call W frag_vec l2 order.
Proof. unfold fit_call. intros ->. reflexivity. Qed.

Lemma fit_loop_lsq (todo start : nat) (st : fit_state) :
  (start + todo <= length (fs_lsq st))%nat ->
  length (fs_lsq (fit_loop W frag_vec todo start st)) = length (fs_lsq st)
  /\ (forall o, (start <= o < start + todo)%nat ->
        fs_lsq (fit_loop W frag_vec todo start st) !!! o
        = fst (fit_call W frag_vec (fs_lsq st) o))
  /\ (forall o, (o < start \/ start + todo <= o)%nat ->
        fs_lsq (fit_loop W frag_vec todo start st) !!! o = fs_lsq st !!! o).
Proof.
  revert start st. induction todo as [| todo IH]; intros start st Hlen.
  - simpl. split; [reflexivity | split; [intros o Ho; lia | reflexivity]].
  - simpl fit_loop.
    specialize (IH (S start) (fit_order W frag_vec start st)).
    rewrite fit_order_lsq, length_insert in IH.
    destruct IH as (Hl & Hin & Hout); [lia |].
    repeat split.
    + exact Hl.
    + intros o Ho. destruct (decide (o = start)) as [-> | Hne].
      * rewrite Hout by lia.
        apply list_lookup_total_insert_eq. lia.
      * rewrite Hin by lia. f_equal. apply fit_call_ext.
        apply list_lookup_total_insert_ne. lia.
    + intros o Ho. rewrite Hout by lia.
      apply list_lookup_total_insert_ne. lia.
Qed.

(** [m] and [c] have [M] entries throughout; an order whose call returns a
    line gets its entries written, and they are not written again. *)
Lemma fit_order_arrays (order : nat) (st : fit_state) :
  length (fs_m (fit_order W frag_vec order st)) = length (fs_m st)
  /\ length (fs_c (fit_order W frag_vec order st)) = length (fs_c st)
  /\ (forall o, o <> order ->
        fs_m (fit_order W frag_vec order st) !!! o = fs_m st !!! o
        /\ fs_c (fit_order W frag_vec order st) !!! o = fs_c st !!! o)
  /\ (fs_ready (fit_order W frag_vec order st) = true <->
      fs_ready st = true
      /\ snd (fit_call W frag_vec (fs_lsq st) order) <> None)
  /\ (forall mv cv,
        snd (fit_call W frag_vec (fs_lsq st) order) = Some (mv, cv) ->
        (order < length (fs_m st))%nat -> (order < length (fs_c st))%nat ->
        fs_m (fit_order W frag_vec order st) !!! order = mv
        /\ fs_c (fit_order W frag_vec order st) !!! order = cv).
Proof.
  unfold fit_order, fit_call.
  destruct (lsq_fit W _ _ _) as [l1 [[mv cv] |]]; simpl.
  - rewrite !length_insert.
    split; [reflexivity |]. split; [reflexivity |].
    split.
    { intros o Ho. split; apply list_lookup_total_insert_ne; congruence. }
    split.
    { split; [intros H; split; [exact H | discriminate]
             | intros [H _]; exact H]. }
    intros mv' cv' H Hm Hc. inversion H; subst.
    split; apply list_lookup_total_insert_eq; assumption.
  - split; [reflexivity |]. split; [reflexivity |].
    split. { intros o Ho. split; reflexivity. }
    split. { split; [discriminate | intros [_ H]; contradiction]. }
    intros mv cv H. discriminate H.
Qed.

Lemma fit_loop_arrays (todo start : nat) (st : fit_state) :
  (start + todo <= length (fs_m st))%nat ->
  (start + todo <= length (fs_c st))%nat ->
  (fs_ready (fit_loop W frag_vec todo start st) = true <->
   fs_ready st = true
   /\ forall o, (start <= o < start + todo)%nat ->
        snd (fit_call W frag_vec (fs_lsq st) o) <> None)
  /\ (forall o mv cv, (start <= o < start + todo)%nat ->
        snd (fit_call W frag_vec (fs_lsq st) o) = Some (mv, cv) ->
        fs_m (fit_loop W frag_vec todo start st) !!! o = mv
        /\ fs_c (fit_loop W frag_vec todo start st) !!! o = cv)
  /\ (forall o, (o < start)%nat ->
        fs_m (fit_loop W frag_vec todo start st) !!! o = fs_m st !!! o
        /\ fs_c (fit_loop W frag_vec todo start st) !!! o = fs_c st !!! o).
Proof.
  revert start st. induction todo as [| todo IH]; intros start st Hm Hc.
  - simpl. split; [| split].
    + split; [intros H; split; [exact H | intros o Ho; lia] | tauto].
    + intros o mv cv Ho. lia.
    + intros o Ho. split; reflexivity.
  - simpl fit_loop.
    destruct (fit_order_arrays start st) as (Lm & Lc & Hoth & Hrdy & Hwr).
    specialize (IH (S start) (fit_order W frag_vec start st)).
    rewrite Lm, Lc in IH. destruct IH as (IHr & IHw & IHo); [lia | lia |].
    assert (Hcall : forall o, o <> start ->
              fit_call W frag_vec (fs_lsq (fit_order W frag_vec start st)) o
              = fit_call W frag_vec (fs_lsq st) o).
    { intros o Ho. apply fit_call_ext. rewrite fit_order_lsq.
      apply list_lookup_total_insert_ne. congruence. }
    split; [| split].
    + split.
      * intros H. apply IHr in H. destruct H as [H1 H2].
        apply Hrdy in H1. destruct H1 as [H1 H3]. split; [exact H1 |].
        intros o Ho. destruct (decide (o = start)) as [-> | Hne];
          [exact H3 |].
        rewrite <- Hcall by exact Hne. apply H2. lia.
      * intros [Hr Hall]. apply IHr. split.
        -- apply Hrdy. split; [exact Hr | apply Hall; lia].
        -- intros o Ho. rewrite Hcall by lia. apply Hall. lia.
    + intros o mv cv Ho Hsome.
      destruct (decide (o = start)) as [-> | Hne].
      * destruct (IHo start ltac:(lia)) as [-> ->].
        apply (Hwr mv cv); [assumption | lia | lia].
      * apply (IHw o mv cv); [lia |]. rewrite Hcall by exact Hne.
        assumption.
    + intros o Ho. destruct (IHo o ltac:(lia)) as [-> ->].
      apply Hoth. lia.
Qed.

End FitLoopEffect.

(** X8. Whatever it returns, a call of [predict] hands every order below
    MAX_ORDER its sample: each of these estimators is left as its own call of
    [lsq_fit] leaves it, also after an earlier order was found not ready;
    nothing else in the array of estimators changes. *)
Theorem predict_feeds_every_order (W MAX_ORDER : nat) (cfg : config)
    (clk : nat -> timespec) (frag_vec : list frag_info)
    (lsq : list lsq_struct) (high_wmark : Z) :
  (MAX_ORDER <= length lsq)%nat ->
  length (fst (predict W MAX_ORDER cfg clk frag_vec lsq high_wmark))
  = length lsq
  /\ (forall order, (order < MAX_ORDER)%nat ->
        fst (predict W MAX_ORDER cfg clk frag_vec lsq high_wmark) !!! order
        = fst (fit_call W frag_vec lsq order))
  /\ (forall order, (MAX_ORDER <= order)%nat ->
        fst (predict W MAX_ORDER cfg clk frag_vec lsq high_wmark) !!! order
        = lsq !!! order).
Proof.
  intros Hlen.
  assert (E : fst (predict W MAX_ORDER cfg clk frag_vec lsq high_wmark)
              = fs_lsq (fit_orders W MAX_ORDER frag_vec lsq)).
  { unfold predict. case (fit_traps _ _ _ _); [reflexivity |].
    case (negb _); reflexivity. }
  rewrite E. unfold fit_orders.
  destruct (fit_loop_lsq W frag_vec MAX_ORDER 0 (fit_start MAX_ORDER lsq))
    as (Hl & Hin & Hout); [simpl; lia |].
  repeat split.
  - exact Hl.
  - intros order Ho. apply Hin. lia.
  - intros order Ho. apply Hout. lia.
Qed.

Lemma predict_feeds_every_order_witness :
  fst (predict 3 2 (mk_config 2 1) (fun _ => mk_timespec 5 0)
         [mk_frag 80 20; mk_frag 40 20]
         [lsq_after 3 [(50, 10)]; lsq_after 3 [(100, 0); (90, 10)]] 50)
    !!! 1%nat
  = fst (lsq_fit 3 (lsq_after 3 [(100, 0); (90, 10)]) 40 20).
Proof.
  destruct (predict_feeds_every_order 3 2 (mk_config 2 1)
              (fun _ => mk_timespec 5 0) [mk_frag 80 20; mk_frag 40 20]
              [lsq_after 3 [(50, 10)]; lsq_after 3 [(100, 0); (90, 10)]] 50)
    as (_ & H & _); [simpl; lia |].
  apply (H 1%nat). lia.
Defined.

(** X9. After the first loop of [predict], [is_ready] is set exactly when
    the call of [lsq_fit] of every order below MAX_ORDER returned a line, and
    then [m] and [c] hold, order by order, the slope and the intercept that
    the call of that order returned. *)
Theorem ready_iff_every_order_fitted (W MAX_ORDER : nat)
    (frag_vec : list frag_info) (lsq : list lsq_struct) :
  fs_ready (fit_orders W MAX_ORDER frag_vec lsq) = true
  <-> forall order, (order < MAX_ORDER)%nat ->
        snd (fit_call W frag_vec lsq order)
        = Some (fs_m (fit_orders W MAX_ORDER frag_vec lsq) !!! order,
                fs_c (fit_orders W MAX_ORDER frag_vec lsq) !!! order).
Proof.
  unfold fit_orders.
  destruct (fit_loop_arrays W frag_vec MAX_ORDER 0 (fit_start MAX_ORDER lsq))
    as (Hr & Hw & _); [simpl; rewrite length_replicate; lia .. |].
  simpl in Hr, Hw. split.
  - intros H order Ho. apply Hr in H. destruct H as [_ H].
    specialize (H order ltac:(lia)).
    destruct (snd (fit_call W frag_vec lsq order)) as [[mv cv] |] eqn:E;
      [| contradiction].
    destruct (Hw order mv cv ltac:(lia) E) as [-> ->]. reflexivity.
  - intros H. apply Hr. split; [reflexivity |].
    intros order Ho. rewrite (H order) by lia. discriminate.
Qed.

(** ** The flag words that [predict] can return *)

Section Flags.

Variable cfg : config.
Variable clk : nat -> timespec.
Variables m c : list Z.

(** The scan returns the flags it was given, or adds "compact" to them, or
    (only with a zero compaction rate) returns the empty set, or stops at
    one of its divisions. *)
Lemma compact_scan_cases (order calls : nat) (retval : Z) :
  compact_scan cfg clk m c order calls retval = Returns retval
  \/ compact_scan cfg clk m c order calls retval
     = Returns (Z.lor retval MEMPREDICT_COMPACT)
  \/ (compaction_rate cfg = 0
      /\ compact_scan cfg clk m c order calls retval = Returns 0)
  \/ compact_scan cfg clk m c order calls retval = Traps.
Proof.
  revert calls. induction order as [| order IH]; intros calls.
  - left. reflexivity.
  - simpl. destruct (_ =? _); [apply IH |].
    destruct (Z.eqb_spec (compaction_rate cfg) 0) as [E | _];
      [right; right; left; split; [exact E | reflexivity] |].
    destruct (x_cross m c (S order)) as [xc |];
      [| right; right; right; reflexivity].
    destruct (y_cross m c (S order)) as [yc |];
      [| right; right; right; reflexivity].
    destruct (_ || _); [right; left; reflexivity |].
    destruct (time_to_compact cfg (c !!! 0%nat) yc) as [ttc |];
      [| right; right; right; reflexivity].
    destruct (_ <=? _); [right; left; reflexivity | apply IH].
Qed.

(** A scan all of whose divisions are carried out does not stop at one. *)
Lemma compact_scan_defined (MAX_ORDER order calls : nat) (retval : Z) :
  (order < MAX_ORDER)%nat \/ order = 0%nat ->
  (compaction_rate cfg <> 0 -> scan_divisions_defined MAX_ORDER cfg m c) ->
  compact_scan cfg clk m c order calls retval <> Traps.
Proof.
  revert calls. induction order as [| order IH]; intros calls Ho Hdiv.
  - discriminate.
  - simpl.
    destruct (Z.eqb_spec (m !!! 0%nat) (m !!! S order)) as [E | Hne];
      [apply IH; [lia | exact Hdiv] |].
    destruct (Z.eqb_spec (compaction_rate cfg) 0) as [E | Hrate];
      [discriminate |].
    destruct (Hdiv Hrate (S order) ltac:(lia) ltac:(congruence))
      as (xc & yc & ttc & -> & -> & ->).
    destruct (_ || _); [discriminate |].
    destruct (_ <=? _); [discriminate |].
    apply IH; [lia | exact Hdiv].
Qed.

(** The order-0 block: how it ends, by the sign of the slope. *)
Lemma reclaim_branch_rising (m0 free0 high_wmark : Z) :
  0 <= m0 ->
  reclaim_branch cfg m0 free0 high_wmark 0 = Next MEMPREDICT_LOWER_WMARKS.
Proof.
  intros H. unfold reclaim_branch.
  destruct (Z.leb_spec 0 m0); [reflexivity | lia].
Qed.

Lemma reclaim_branch_breach (m0 free0 high_wmark : Z) :
  m0 < 0 -> reclaim_rate cfg <> 0 -> to_u64 free0 <= high_wmark ->
  reclaim_branch cfg m0 free0 high_wmark 0 = Next MEMPREDICT_RECLAIM.
Proof.
  intros Hm Hr Hw. unfold reclaim_branch.
  destruct (Z.leb_spec 0 m0); [lia |].
  destruct (Z.eqb_spec (reclaim_rate cfg) 0); [contradiction |].
  destruct (Z.leb_spec (to_u64 free0) high_wmark); [reflexivity | lia].
Qed.

End Flags.

Lemma predict_ready (W MAX_ORDER : nat) (cfg : config)
    (clk : nat -> timespec) (frag_vec : list frag_info)
    (lsq : list lsq_struct) (high_wmark : Z) :
  fit_traps W MAX_ORDER frag_vec lsq = false ->
  fs_ready (fit_orders W MAX_ORDER frag_vec lsq) = true ->
  snd (predict W MAX_ORDER cfg clk frag_vec lsq high_wmark)
  = decide_flags MAX_ORDER cfg clk
      (fs_m (fit_orders W MAX_ORDER frag_vec lsq))
      (fs_c (fit_orders W MAX_ORDER frag_vec lsq))
      (free_pages (frag_vec !!! 0%nat)) high_wmark.
Proof. intros Ht H. unfold predict. rewrite Ht, H. reflexivity. Qed.

Lemma predict_not_ready (W MAX_ORDER : nat) (cfg : config)
    (clk : nat -> timespec) (frag_vec : list frag_info)
    (lsq : list lsq_struct) (high_wmark : Z) :
  fit_traps W MAX_ORDER frag_vec lsq = false ->
  fs_ready (fit_orders W MAX_ORDER frag_vec lsq) = false ->
  snd (predict W MAX_ORDER cfg clk frag_vec lsq high_wmark) = Returns 0.
Proof. intros Ht H. unfold predict. rewrite Ht, H. reflexivity. Qed.

Lemma predict_fit_traps (W MAX_ORDER : nat) (cfg : config)
    (clk : nat -> timespec) (frag_vec : list frag_info)
    (lsq : list lsq_struct) (high_wmark : Z) :
  fit_traps W MAX_ORDER frag_vec lsq = true ->
  snd (predict W MAX_ORDER cfg clk frag_vec lsq high_wmark) = Traps.
Proof. intros Ht. unfold predict. rewrite Ht. reflexivity. Qed.

(** X10. A call of [predict] that returns hands back one of six flag words:
    nothing, "reclaim", "lower watermarks", or one of these three with
    "compact" added.  "Reclaim" and "lower watermarks" never come
    together. *)
Theorem predict_flag_words (W MAX_ORDER : nat) (cfg : config)
    (clk : nat -> timespec) (frag_vec : list frag_info)
    (lsq : list lsq_struct) (high_wmark flags : Z) :
  snd (predict W MAX_ORDER cfg clk frag_vec lsq high_wmark) = Returns flags ->
  (exists r, (r = 0 \/ r = MEMPREDICT_RECLAIM
              \/ r = MEMPREDICT_LOWER_WMARKS)
             /\ (flags = r \/ flags = Z.lor r MEMPREDICT_COMPACT))
  /\ (has_flag flags MEMPREDICT_RECLAIM
      && has_flag flags MEMPREDICT_LOWER_WMARKS = false).
Proof.
  intros H.
  assert (Hr : exists r, (r = 0 \/ r = MEMPREDICT_RECLAIM
                          \/ r = MEMPREDICT_LOWER_WMARKS)
                         /\ (flags = r
                             \/ flags = Z.lor r MEMPREDICT_COMPACT)).
  { destruct (fit_traps W MAX_ORDER frag_vec lsq) eqn:Ht;
      [rewrite predict_fit_traps in H by exact Ht; discriminate H |].
    destruct (fs_ready (fit_orders W MAX_ORDER frag_vec lsq)) eqn:Hrdy.
    - rewrite predict_ready in H by assumption. unfold decide_flags in H.
      destruct (reclaim_branch _ _ _ _ _) as [retval | o] eqn:Hb.
      + pose proof (reclaim_branch_next _ _ _ _ _ Hb) as Hret.
        destruct (compact_scan_cases cfg clk
                    (fs_m (fit_orders W MAX_ORDER frag_vec lsq))
                    (fs_c (fit_orders W MAX_ORDER frag_vec lsq))
                    (MAX_ORDER - 1) 0 retval)
          as [E | [E | [[_ E] | E]]];
          rewrite E in H; [injection H as <- .. | discriminate H].
        * exists retval. split; [exact Hret | left; reflexivity].
        * exists retval. split; [exact Hret | right; reflexivity].
        * exists 0. split; [left; reflexivity | left; reflexivity].
      + subst o. exists 0. split; [left; reflexivity | left].
        unfold reclaim_branch in Hb.
        repeat match type of Hb with
               | context [if ?b then _ else _] => destruct b
               | context [match ?o with Some _ => _ | None => _ end] =>
                   destruct o
               end; congruence.
    - rewrite predict_not_ready in H by assumption. injection H as <-.
      exists 0. split; left; reflexivity. }
  split; [exact Hr |].
  destruct Hr as (r & [-> | [-> | ->]] & [-> | ->]); reflexivity.
Qed.

Lemma predict_flag_words_witness :
  has_flag MEMPREDICT_LOWER_WMARKS MEMPREDICT_RECLAIM
  && has_flag MEMPREDICT_LOWER_WMARKS MEMPREDICT_LOWER_WMARKS = false.
Proof.
  apply (predict_flag_words 2 2 (mk_config 1 0) (fun _ => mk_timespec 1 0)
           [mk_frag 110 10; mk_frag 60 10]
           [lsq_after 2 [(100, 0)]; lsq_after 2 [(50, 0)]] 0
           MEMPREDICT_LOWER_WMARKS).
  reflexivity.
Defined.

(** X11. With a compaction rate that is not zero and no division of the
    estimators or of the compaction scan trapping, the scan only ever adds
    "compact": whenever the order-0 block falls through with some flags,
    [predict] returns these flags, with or without "compact". *)
Theorem known_rate_keeps_order0_flags (W MAX_ORDER : nat) (cfg : config)
    (clk : nat -> timespec) (frag_vec : list frag_info)
    (lsq : list lsq_struct) (high_wmark retval : Z) :
  fit_traps W MAX_ORDER frag_vec lsq = false ->
  fs_ready (fit_orders W MAX_ORDER frag_vec lsq) = true ->
  compaction_rate cfg <> 0 ->
  scan_divisions_defined MAX_ORDER cfg
    (fs_m (fit_orders W MAX_ORDER frag_vec lsq))
    (fs_c (fit_orders W MAX_ORDER frag_vec lsq)) ->
  reclaim_branch cfg (slope0 (fit_orders W MAX_ORDER frag_vec lsq))
    (free_pages (frag_vec !!! 0%nat)) high_wmark 0 = Next retval ->
  snd (predict W MAX_ORDER cfg clk frag_vec lsq high_wmark) = Returns retval
  \/ snd (predict W MAX_ORDER cfg clk frag_vec lsq high_wmark)
     = Returns (Z.lor retval MEMPREDICT_COMPACT).
Proof.
  intros Ht Hrdy Hrate Hdiv Hb. rewrite predict_ready by assumption.
  unfold decide_flags. unfold slope0 in Hb. rewrite Hb.
  destruct (compact_scan_cases cfg clk
              (fs_m (fit_orders W MAX_ORDER frag_vec lsq))
              (fs_c (fit_orders W MAX_ORDER frag_vec lsq))
              (MAX_ORDER - 1) 0 retval) as [E | [E | [[E _] | E]]];
    [left; exact E | right; exact E | contradiction |].
  exfalso. revert E. apply (compact_scan_defined _ _ _ _ MAX_ORDER);
    [lia | intros _; exact Hdiv].
Qed.

Lemma known_rate_keeps_order0_flags_witness :
  snd (predict 2 2 (mk_config 1 1) (fun _ => mk_timespec 2 0)
         [mk_frag 1090 10; mk_frag 595 10]
         [lsq_after 2 [(1100, 0)]; lsq_after 2 [(595, 0)]] 0) = Returns 0
  \/ snd (predict 2 2 (mk_config 1 1) (fun _ => mk_timespec 2 0)
            [mk_frag 1090 10; mk_frag 595 10]
            [lsq_after 2 [(1100, 0)]; lsq_after 2 [(595, 0)]] 0)
     = Returns (Z.lor 0 MEMPREDICT_COMPACT).
Proof.
  apply (known_rate_keeps_order0_flags 2 2 (mk_config 1 1)
           (fun _ => mk_timespec 2 0) [mk_frag 1090 10; mk_frag 595 10]
           [lsq_after 2 [(1100, 0)]; lsq_after 2 [(595, 0)]] 0 0).
  - reflexivity.
  - reflexivity.
  - discriminate.
  - intros order Ho Hne. assert (order = 1%nat) as -> by lia.
    exists 1000, 595, 1000. vm_compute. repeat split.
  - vm_compute. reflexivity.
Defined.

Section Trend.

Variable W : nat.

(** A line fitted to a window in which the value never falls as time
    advances has a slope that is not negative. *)
Lemma fitted_rising_slope (lsq : lsq_struct) (vy vx m c : Z) :
  lsq_wf W lsq ->
  no_overflow (Z.of_nat W) (translated_points (lsq_insert W lsq vy vx)) ->
  concordant (window (lsq_insert W lsq vy vx)) ->
  snd (lsq_fit W lsq vy vx) = Some (m, c) ->
  0 <= m.
Proof.
  intros Hwf Hno Hc Hfit.
  set (lsq1 := lsq_insert W lsq vy vx) in *.
  assert (Hwf1 : lsq_wf W lsq1).
  { destruct Hwf as (Hn & Hx & Hy). unfold lsq_wf, lsq1, lsq_insert. simpl.
    rewrite !length_insert. repeat split; try assumption.
    case_bool_decide; lia. }
  pose proof (slope_numerator_concordant _ (concordant_translated _ Hc))
    as HN.
  pose proof (slope_denominator_nonneg (translated_points lsq1)) as HD.
  rewrite (wf_translated_length W lsq1 Hwf1) in HN, HD.
  unfold lsq_fit in Hfit. fold lsq1 in Hfit.
  destruct (negb (ready lsq1)); [discriminate |].
  rewrite (lsq_line_least_squares W lsq1 Hno) in Hfit.
  unfold least_squares_line in Hfit.
  destruct (Z.eqb_spec (slope_denominator (Z.of_nat W)
                          (translated_points lsq1)) 0) as [E | E];
    [discriminate |].
  injection Hfit as <- _. unfold spec_slope. apply Z.quot_pos; lia.
Qed.

End Trend.

(** X12. When every order is ready, the order-0 slope is negative, the
    reclaim rate and the compaction rate are known (not zero), no division
    of the estimators or of the compaction scan traps and the free pages of
    order 0 are at or below the high watermark (compared as unsigned
    numbers), [predict] returns with "reclaim" set and "lower watermarks"
    clear. *)
Theorem breach_sets_reclaim (W MAX_ORDER : nat) (cfg : config)
    (clk : nat -> timespec) (frag_vec : list frag_info)
    (lsq : list lsq_struct) (high_wmark : Z) :
  fit_traps W MAX_ORDER frag_vec lsq = false ->
  fs_ready (fit_orders W MAX_ORDER frag_vec lsq) = true ->
  slope0 (fit_orders W MAX_ORDER frag_vec lsq) < 0 ->
  reclaim_rate cfg <> 0 -> compaction_rate cfg <> 0 ->
  scan_divisions_defined MAX_ORDER cfg
    (fs_m (fit_orders W MAX_ORDER frag_vec lsq))
    (fs_c (fit_orders W MAX_ORDER frag_vec lsq)) ->
  to_u64 (free_pages (frag_vec !!! 0%nat)) <= high_wmark ->
  exists flags,
    snd (predict W MAX_ORDER cfg clk frag_vec lsq high_wmark) = Returns flags
    /\ has_flag flags MEMPREDICT_RECLAIM = true
    /\ has_flag flags MEMPREDICT_LOWER_WMARKS = false.
Proof.
  intros Ht Hrdy Hm Hrr Hcr Hdiv Hw. rewrite predict_ready by assumption.
  unfold decide_flags. unfold slope0 in Hm.
  rewrite (reclaim_branch_breach cfg _ _ _ Hm Hrr Hw).
  destruct (compact_scan_cases cfg clk
              (fs_m (fit_orders W MAX_ORDER frag_vec lsq))
              (fs_c (fit_orders W MAX_ORDER frag_vec lsq))
              (MAX_ORDER - 1) 0 MEMPREDICT_RECLAIM)
    as [E | [E | [[E _] | E]]];
    [| | contradiction |]; [rewrite E; eexists; repeat split .. |].
  exfalso. revert E. apply (compact_scan_defined _ _ _ _ MAX_ORDER);
    [lia | intros _; exact Hdiv].
Qed.

Lemma breach_sets_reclaim_witness :
  exists flags,
    snd (predict 2 2 (mk_config 1 1) (fun _ => mk_timespec 2 0)
           [mk_frag 1090 10; mk_frag 595 10]
           [lsq_after 2 [(1100, 0)]; lsq_after 2 [(595, 0)]] 2000)
    = Returns flags
    /\ has_flag flags MEMPREDICT_RECLAIM = true
    /\ has_flag flags MEMPREDICT_LOWER_WMARKS = false.
Proof.
  apply (breach_sets_reclaim 2 2 (mk_config 1 1) (fun _ => mk_timespec 2 0)
           [mk_frag 1090 10; mk_frag 595 10]
           [lsq_after 2 [(1100, 0)]; lsq_after 2 [(595, 0)]] 2000).
  - reflexivity.
  - reflexivity.
  - vm_compute. reflexivity.
  - discriminate.
  - discriminate.
  - intros order Ho Hne. assert (order = 1%nat) as -> by lia.
    exists 1000, 595, 1000. vm_compute. repeat split.
  - vm_compute. intros H. discriminate H.
Defined.

(** X13. When every order is ready, the window of order 0, well formed and
    free of overflow, holds free-page counts that never fall as time
    advances, and no division of the estimators nor (with a compaction rate
    that is not zero) of the compaction scan traps, [predict] returns, never
    with "reclaim"; and with a compaction rate that is not zero it returns
    with "lower watermarks" set. *)
Theorem rising_free_pages_lower_watermarks (W MAX_ORDER : nat) (cfg : config)
    (clk : nat -> timespec) (frag_vec : list frag_info)
    (lsq : list lsq_struct) (high_wmark : Z) :
  (0 < MAX_ORDER)%nat ->
  fit_traps W MAX_ORDER frag_vec lsq = false ->
  fs_ready (fit_orders W MAX_ORDER frag_vec lsq) = true ->
  lsq_wf W (lsq !!! 0%nat) ->
  no_overflow (Z.of_nat W)
    (translated_points
       (lsq_insert W (lsq !!! 0%nat) (free_pages (frag_vec !!! 0%nat))
          (msecs (frag_vec !!! 0%nat)))) ->
  concordant
    (window
       (lsq_insert W (lsq !!! 0%nat) (free_pages (frag_vec !!! 0%nat))
          (msecs (frag_vec !!! 0%nat)))) ->
  (compaction_rate cfg <> 0 ->
   scan_divisions_defined MAX_ORDER cfg
     (fs_m (fit_orders W MAX_ORDER frag_vec lsq))
     (fs_c (fit_orders W MAX_ORDER frag_vec lsq))) ->
  exists flags,
    snd (predict W MAX_ORDER cfg clk frag_vec lsq high_wmark) = Returns flags
    /\ has_flag flags MEMPREDICT_RECLAIM = false
    /\ (compaction_rate cfg <> 0 ->
        has_flag flags MEMPREDICT_LOWER_WMARKS = true).
Proof.
  intros HM Ht Hrdy Hwf Hno Hc Hdiv.
  assert (Hm0 : 0 <= fs_m (fit_orders W MAX_ORDER frag_vec lsq) !!! 0%nat).
  { destruct (fit_loop_arrays W frag_vec MAX_ORDER 0
                (fit_start MAX_ORDER lsq)) as (Hr & Hw & _);
      [simpl; rewrite length_replicate; lia .. |].
    simpl in Hr, Hw. unfold fit_orders in Hrdy. apply Hr in Hrdy.
    destruct Hrdy as [_ Hall]. specialize (Hall 0%nat ltac:(lia)).
    destruct (snd (fit_call W frag_vec lsq 0)) as [[mv cv] |] eqn:E;
      [| contradiction].
    destruct (Hw 0%nat mv cv ltac:(lia) E) as [Em _].
    unfold fit_orders. rewrite Em.
    apply (fitted_rising_slope W (lsq !!! 0%nat) _ _ mv cv Hwf Hno Hc).
    exact E. }
  rewrite predict_ready by assumption. unfold decide_flags.
  rewrite (reclaim_branch_rising cfg _ _ _ Hm0).
  destruct (compact_scan_cases cfg clk
              (fs_m (fit_orders W MAX_ORDER frag_vec lsq))
              (fs_c (fit_orders W MAX_ORDER frag_vec lsq))
              (MAX_ORDER - 1) 0 MEMPREDICT_LOWER_WMARKS)
    as [E | [E | [[E0 E] | E]]];
    [| | | exfalso; revert E;
           apply (compact_scan_defined _ _ _ _ MAX_ORDER);
           [lia | exact Hdiv]];
    rewrite E; eexists; (split; [reflexivity | split; [reflexivity |]]).
  - reflexivity.
  - reflexivity.
  - intros Hne. contradiction.
Qed.

Lemma rising_free_pages_lower_watermarks_witness :
  exists flags,
    snd (predict 2 2 (mk_config 1 1) (fun _ => mk_timespec 2 0)
           [mk_frag 110 10; mk_frag 60 10]
           [lsq_after 2 [(100, 0)]; lsq_after 2 [(50, 0)]] 0)
    = Returns flags
    /\ has_flag flags MEMPREDICT_RECLAIM = false
    /\ (compaction_rate (mk_config 1 1) <> 0 ->
        has_flag flags MEMPREDICT_LOWER_WMARKS = true).
Proof.
  apply (rising_free_pages_lower_watermarks 2 2 (mk_config 1 1)
           (fun _ => mk_timespec 2 0) [mk_frag 110 10; mk_frag 60 10]
           [lsq_after 2 [(100, 0)]; lsq_after 2 [(50, 0)]] 0).
  - lia.
  - reflexivity.
  - reflexivity.
  - unfold lsq_wf. simpl. repeat split. lia.
  - unfold no_overflow, in_s64. vm_compute.
    repeat split; first [intros H; discriminate H | reflexivity].
  - intros p q Hp Hq. simpl in Hp, Hq.
    repeat (apply elem_of_cons in Hp; destruct Hp as [-> | Hp]);
      repeat (apply elem_of_cons in Hq; destruct Hq as [-> | Hq]);
      try (inversion Hp; fail); try (inversion Hq; fail); simpl; lia.
  - intros _ order Ho Hne. assert (order = 1%nat) as -> by lia.
    exfalso. apply Hne. vm_compute. reflexivity.
Defined.

(** X14. Provided no division of the compaction scan traps, a call of
    [predict] ends at a trapping division exactly when the call of some
    estimator stops at one, or every order is ready, the order-0 slope is
    negative with its low 32 bits all zero, the reclaim rate is not zero and
    the free pages of order 0 are above the high watermark; in every other
    case it returns. *)
Theorem predict_traps_iff (W MAX_ORDER : nat) (cfg : config)
    (clk : nat -> timespec) (frag_vec : list frag_info)
    (lsq : list lsq_struct) (high_wmark : Z) :
  in_s64 (reclaim_rate cfg) ->
  (compaction_rate cfg <> 0 ->
   scan_divisions_defined MAX_ORDER cfg
     (fs_m (fit_orders W MAX_ORDER frag_vec lsq))
     (fs_c (fit_orders W MAX_ORDER frag_vec lsq))) ->
  snd (predict W MAX_ORDER cfg clk frag_vec lsq high_wmark) = Traps
  <-> fit_traps W MAX_ORDER frag_vec lsq = true
      \/ (fs_ready (fit_orders W MAX_ORDER frag_vec lsq) = true
          /\ slope0 (fit_orders W MAX_ORDER frag_vec lsq) < 0
          /\ reclaim_rate cfg <> 0
          /\ high_wmark < to_u64 (free_pages (frag_vec !!! 0%nat))
          /\ wrap32 (slope0 (fit_orders W MAX_ORDER frag_vec lsq)) = 0).
Proof.
  intros Hrate Hdiv.
  destruct (fit_traps W MAX_ORDER frag_vec lsq) eqn:Ht;
    [rewrite predict_fit_traps by exact Ht;
     split; [left; reflexivity | reflexivity] |].
  destruct (fs_ready (fit_orders W MAX_ORDER frag_vec lsq)) eqn:Hrdy.
  - rewrite predict_ready by assumption. unfold decide_flags, slope0.
    rewrite <- (reclaim_branch_traps cfg _ _ _ 0 Hrate).
    destruct (reclaim_branch _ _ _ _ _) as [retval | o] eqn:Hb.
    + split; [| intros [H | [_ H]]; discriminate H].
      intros E. exfalso. revert E.
      apply (compact_scan_defined _ _ _ _ MAX_ORDER); [lia | exact Hdiv].
    + split; [intros ->; right; split; reflexivity |].
      intros [H | [_ H]]; [discriminate H |].
      injection H as ->. reflexivity.
  - rewrite predict_not_ready by assumption.
    split; [discriminate | intros [H | [H _]]; discriminate H].
Qed.

Lemma predict_traps_iff_witness :
  snd (predict 2 1 (mk_config 1 1) (fun _ => mk_timespec 0 0)
         [mk_frag (2 ^ 30) 25] [lsq_after 2 [(2 ^ 31, 0)]] 1000) = Traps.
Proof.
  apply (predict_traps_iff 2 1 (mk_config 1 1) (fun _ => mk_timespec 0 0)
           [mk_frag (2 ^ 30) 25] [lsq_after 2 [(2 ^ 31, 0)]] 1000).
  - unfold in_s64, half64. simpl. lia.
  - intros _ order Ho. lia.
  - right. vm_compute. repeat split. intros H. discriminate H.
Defined.

Section ScanTop.

Variable cfg : config.
Variable clk : nat -> timespec.
Variables m c : list Z.

(** The scan passes over the orders parallel to order 0 at its top without
    reading the clock. *)
Lemma compact_scan_skip_top (top order calls : nat) (retval : Z) :
  (order <= top)%nat ->
  (forall o, (order < o <= top)%nat -> m !!! o = m !!! 0%nat) ->
  compact_scan cfg clk m c top calls retval
  = compact_scan cfg clk m c order calls retval.
Proof.
  intros Hle. induction top as [| top IH]; intros Hpar.
  - replace order with 0%nat by lia. reflexivity.
  - destruct (decide (order = S top)) as [-> | Hne]; [reflexivity |].
    simpl. rewrite (Hpar (S top)) by lia. rewrite Z.eqb_refl.
    apply IH; [lia |]. intros o Ho. apply Hpar. lia.
Qed.

End ScanTop.

(** X15. When every order is ready, the order-0 slope is negative and the
    reclaim rate is zero, [predict] returns the empty flag set: no
    "reclaim", and no "compact" either, whatever the higher orders, the
    compaction rate and the clock are.  (All orders being ready, every call
    of an estimator has returned; were one to stop at a trapping division,
    [predict] would stop with it.) *)
Theorem unknown_reclaim_rate_returns_nothing (W MAX_ORDER : nat)
    (cfg : config) (clk : nat -> timespec) (frag_vec : list frag_info)
    (lsq : list lsq_struct) (high_wmark : Z) :
  fs_ready (fit_orders W MAX_ORDER frag_vec lsq) = true ->
  slope0 (fit_orders W MAX_ORDER frag_vec lsq) < 0 ->
  reclaim_rate cfg = 0 ->
  snd (predict W MAX_ORDER cfg clk frag_vec lsq high_wmark)
  = if fit_traps W MAX_ORDER frag_vec lsq then Traps else Returns 0.
Proof.
  intros Hrdy Hm Hrr.
  destruct (fit_traps W MAX_ORDER frag_vec lsq) eqn:Ht;
    [apply predict_fit_traps, Ht |].
  rewrite predict_ready by assumption.
  unfold decide_flags, reclaim_branch. unfold slope0 in Hm.
  destruct (Z.leb_spec 0 (fs_m (fit_orders W MAX_ORDER frag_vec lsq)
                            !!! 0%nat)); [lia |].
  rewrite Hrr. reflexivity.
Qed.

Lemma unknown_reclaim_rate_returns_nothing_witness :
  snd (predict 2 2 (mk_config 0 1) (fun _ => mk_timespec 2 0)
         [mk_frag 1090 10; mk_frag 595 10]
         [lsq_after 2 [(1100, 0)]; lsq_after 2 [(595, 0)]] 2000)
  = Returns 0.
Proof.
  rewrite (unknown_reclaim_rate_returns_nothing 2 2 (mk_config 0 1)
             (fun _ => mk_timespec 2 0) [mk_frag 1090 10; mk_frag 595 10]
             [lsq_after 2 [(1100, 0)]; lsq_after 2 [(595, 0)]] 2000).
  - reflexivity.
  - reflexivity.
  - vm_compute. reflexivity.
  - reflexivity.
Defined.

(** X16. When every order is ready (no call of an estimator having stopped
    at a trapping division), the order-0 block falls through, the
    compaction rate is not zero, and the highest order that is not parallel
    to order 0 has its crossing with order 0 (both of whose coordinates are
    computed without overflow) at a negative time, [predict] returns with
    "compact" added to the flags of the order-0 block, without regard to the
    clock. *)
Theorem past_crossing_sets_compact (W MAX_ORDER : nat) (cfg : config)
    (clk : nat -> timespec) (frag_vec : list frag_info)
    (lsq : list lsq_struct) (high_wmark retval : Z) (order : nat)
    (xc yc : Z) :
  let st := fit_orders W MAX_ORDER frag_vec lsq in
  fit_traps W MAX_ORDER frag_vec lsq = false ->
  fs_ready st = true ->
  reclaim_branch cfg (slope0 st) (free_pages (frag_vec !!! 0%nat))
    high_wmark 0 = Next retval ->
  compaction_rate cfg <> 0 ->
  (1 <= order < MAX_ORDER)%nat ->
  fs_m st !!! order <> fs_m st !!! 0%nat ->
  (forall o, (order < o < MAX_ORDER)%nat ->
     fs_m st !!! o = fs_m st !!! 0%nat) ->
  x_cross (fs_m st) (fs_c st) order = Some xc ->
  y_cross (fs_m st) (fs_c st) order = Some yc ->
  xc < 0 ->
  snd (predict W MAX_ORDER cfg clk frag_vec lsq high_wmark)
  = Returns (Z.lor retval MEMPREDICT_COMPACT).
Proof.
  intros st Ht Hrdy Hb Hrate Ho Hne Hpar Hxc Hyc Hx.
  rewrite predict_ready by assumption. fold st.
  unfold decide_flags. unfold slope0 in Hb. rewrite Hb.
  rewrite (compact_scan_skip_top cfg clk (fs_m st) (fs_c st)
             (MAX_ORDER - 1) order 0 retval);
    [| lia | intros o Ho'; apply Hpar; lia].
  destruct order as [| order]; [lia |]. simpl.
  destruct (Z.eqb_spec (fs_m st !!! 0%nat) (fs_m st !!! S order)) as [E | _];
    [congruence |].
  destruct (Z.eqb_spec (compaction_rate cfg) 0) as [E | _];
    [contradiction |].
  rewrite Hxc, Hyc.
  destruct (Z.ltb_spec xc 0); [reflexivity | lia].
Qed.

Lemma past_crossing_sets_compact_witness :
  snd (predict 2 2 (mk_config 1 1) (fun _ => mk_timespec 0 0)
         [mk_frag 1090 10; mk_frag 2595 10]
         [lsq_after 2 [(1100, 0)]; lsq_after 2 [(2595, 0)]] 0)
  = Returns (Z.lor 0 MEMPREDICT_COMPACT).
Proof.
  apply (past_crossing_sets_compact 2 2 (mk_config 1 1)
           (fun _ => mk_timespec 0 0) [mk_frag 1090 10; mk_frag 2595 10]
           [lsq_after 2 [(1100, 0)]; lsq_after 2 [(2595, 0)]] 0 0 1
           (-1000) 2595).
  - reflexivity.
  - reflexivity.
  - vm_compute. reflexivity.
  - discriminate.
  - lia.
  - vm_compute. discriminate.
  - intros o Ho. lia.
  - vm_compute. reflexivity.
  - vm_compute. reflexivity.
  - lia.
Defined.

(** ** Two runs that differ by a constant in every time *)

Section ShiftedRun.

Variable W : nat.
Variable k : Z.

Lemma lsq_struct_eq (a b : lsq_struct) :
  next a = next b -> ready a = ready b -> x a = x b -> y a = y b -> a = b.
Proof. destruct a, b. simpl. intros -> -> -> ->. reflexivity. Qed.

Lemma shifted_state_step (l l' : lsq_struct) (vy vx : Z) :
  lsq_wf W l -> Forall in_s64 (x l) -> Forall in_s64 (x l') ->
  shifted_state k l l' ->
  in_s64 vx -> in_s64 (vx + k) ->
  (ready (lsq_insert W l vy vx) = true -> snd (lsq_fit W l vy vx) <> None) ->
  snd (lsq_fit W l' vy (vx + k)) = snd (lsq_fit W l vy vx)
  /\ lsq_wf W (fst (lsq_fit W l vy vx))
  /\ Forall in_s64 (x (fst (lsq_fit W l vy vx)))
  /\ Forall in_s64 (x (fst (lsq_fit W l' vy (vx + k))))
  /\ shifted_state k (fst (lsq_fit W l vy vx))
       (fst (lsq_fit W l' vy (vx + k))).
Proof.
  intros Hwf Hxs Hxs' (Hn & Hr & Hy & Hlen & Hsl) Hvx Hvxk Hfit.
  pose proof (lsq_fit_wf W l vy vx Hwf) as Hwf1.
  rewrite (lsq_fit_state_fitted W l vy vx Hxs Hvx Hfit) in *.
  destruct Hwf as (Hnl & Hxl & Hyl).
  set (l1 := lsq_insert W l vy vx) in *.
  set (l1' := lsq_insert W l' vy (vx + k)).
  assert (Hn1 : next l1' = next l1)
    by (unfold l1, l1', lsq_insert; simpl; rewrite Hn; reflexivity).
  assert (Hr1 : ready l1' = ready l1)
    by (unfold l1, l1', lsq_insert; simpl; rewrite Hn, Hr; reflexivity).
  assert (Hy1 : y l1' = y l1)
    by (unfold l1, l1', lsq_insert; simpl; rewrite Hn, Hy; reflexivity).
  assert (Hx1 : x l1 = <[next l := vx]> (x l)) by reflexivity.
  assert (Hx1' : x l1' = <[next l := vx + k]> (x l'))
    by (unfold l1', lsq_insert; simpl; rewrite Hn; reflexivity).
  assert (Hl1 : length (x l1') = length (x l1))
    by (rewrite Hx1, Hx1', !length_insert; exact Hlen).
  assert (Hin : Forall in_s64 (x l1)).
  { rewrite Hx1. apply Forall_insert; assumption. }
  assert (Hin' : Forall in_s64 (x l1')).
  { rewrite Hx1'. apply Forall_insert; assumption. }
  assert (Hnew : forall j, j = next l ->
            x l1' !! j = (fun v => v +! k) <$> (x l1 !! j)).
  { intros j ->. rewrite Hx1, Hx1'.
    rewrite !list_lookup_insert_eq by lia. simpl.
    unfold add64. rewrite wrap64_small by exact Hvxk. reflexivity. }
  assert (Hold : forall j, j <> next l ->
            ready l = true \/ (j < next l)%nat ->
            x l1' !! j = (fun v => v +! k) <$> (x l1 !! j)).
  { intros j Hj Hc. rewrite Hx1, Hx1'.
    rewrite !list_lookup_insert_ne by congruence. apply Hsl, Hc. }
  destruct (ready l1) eqn:Hrdy.
  - (* the window is full: the whole time array is moved by [k] *)
    assert (Hall : forall j, x l1' !! j = (fun v => v +! k) <$> (x l1 !! j)).
    { intros j. destruct (decide (j = next l)) as [Hj | Hj];
        [apply Hnew, Hj |].
      destruct (ready l) eqn:Hrl; [apply Hold; [exact Hj | left; reflexivity] |].
      assert (Hwrap : S (next l) = W).
      { unfold l1, lsq_insert in Hrdy. simpl in Hrdy.
        case_bool_decide; [assumption | congruence]. }
      destruct (Nat.lt_ge_cases j (next l)) as [Hlt | Hge];
        [apply Hold; [exact Hj | right; exact Hlt] |].
      rewrite (lookup_ge_None_2 (x l1')) by (rewrite Hl1, Hx1, length_insert; lia).
      rewrite (lookup_ge_None_2 (x l1)) by (rewrite Hx1, length_insert; lia).
      reflexivity. }
    assert (Eshift : l1' = shift_x k l1).
    { apply lsq_struct_eq;
        [exact Hn1 | exact (eq_trans Hr1 (eq_sym Hrdy)) | | exact Hy1].
      change (x (shift_x k l1)) with ((fun v => v +! k) <$> x l1).
      apply list_eq. intros j. rewrite list_lookup_fmap. apply Hall. }
    assert (Eres : snd (lsq_fit W l' vy (vx + k)) = snd (lsq_fit W l vy vx)).
    { unfold lsq_fit. fold l1 l1'. rewrite Hr1, Hrdy. simpl negb. cbv iota.
      rewrite Eshift. apply lsq_line_result_ext; [| reflexivity].
      apply shift_x_translate. destruct Hwf1 as (H1 & H2 & _). lia. }
    assert (Efst : fst (lsq_fit W l' vy (vx + k)) = l1').
    { apply lsq_fit_state_fitted; try assumption.
      intros _. rewrite Eres. apply Hfit. reflexivity. }
    rewrite Efst.
    split; [exact Eres |]. split; [exact Hwf1 |]. split; [exact Hin |].
    split; [exact Hin' |].
    split; [exact Hn1 |]. split; [congruence |]. split; [exact Hy1 |].
    split; [exact Hl1 |]. intros j _. apply Hall.
  - (* the window is still filling *)
    assert (Eres : snd (lsq_fit W l' vy (vx + k)) = snd (lsq_fit W l vy vx)).
    { unfold lsq_fit. fold l1 l1'. rewrite Hr1, Hrdy. reflexivity. }
    assert (Efst : fst (lsq_fit W l' vy (vx + k)) = l1').
    { unfold lsq_fit. fold l1'. rewrite Hr1. reflexivity. }
    rewrite Efst.
    split; [exact Eres |]. split; [exact Hwf1 |]. split; [exact Hin |].
    split; [exact Hin' |].
    split; [exact Hn1 |]. split; [congruence |]. split; [exact Hy1 |].
    split; [exact Hl1 |].
    intros j [Hc | Hc]; [congruence |].
      assert (Hstep : next l1 = S (next l)).
      { unfold l1, lsq_insert in Hrdy |- *. simpl in Hrdy |- *.
        case_bool_decide; [congruence | reflexivity]. }
      destruct (decide (j = next l)) as [Hj | Hj]; [apply Hnew, Hj |].
      apply Hold; [exact Hj | right; lia].
Qed.

Lemma shifted_run_results (obs : list (Z * Z)) (l l' : lsq_struct) :
  lsq_wf W l -> Forall in_s64 (x l) -> Forall in_s64 (x l') ->
  shifted_state k l l' -> fitted_run W l obs ->
  Forall (fun p => in_s64 (snd p + k)) obs ->
  snd (observe_all W l' (shift_times k obs)) = snd (observe_all W l obs).
Proof.
  revert l l'. induction obs as [| [vy vx] obs IH];
    intros l l' Hwf Hxs Hxs' Hsh Hrun Hk.
  - reflexivity.
  - destruct Hrun as (Hvx & Hfit & Hrest).
    apply Forall_cons in Hk. destruct Hk as [Hvxk Hk]. simpl in Hvxk.
    destruct (shifted_state_step l l' vy vx Hwf Hxs Hxs' Hsh Hvx Hvxk Hfit)
      as (Eres & Hwf1 & Hin & Hin' & Hsh1).
    change (shift_times k ((vy, vx) :: obs))
      with ((vy, vx + k) :: shift_times k obs).
    rewrite !observe_all_cons. simpl snd. f_equal; [exact Eres |].
    apply IH; assumption.
Qed.

End ShiftedRun.

(** X17. A run of calls on a fresh estimator in which no call ends at the
    divide-by-zero guard returns the same results, call by call, when a
    constant k is added to the time of every sample (all times fitting 64
    bits before and after). *)
Theorem shifted_run_same_results (W : nat) (k : Z) (obs : list (Z * Z)) :
  (0 < W)%nat ->
  fitted_run W (lsq_init W) obs ->
  Forall (fun p => in_s64 (snd p + k)) obs ->
  snd (observe_all W (lsq_init W) (shift_times k obs))
  = snd (observe_all W (lsq_init W) obs).
Proof.
  intros HW Hrun Hk.
  assert (Hz : Forall in_s64 (x (lsq_init W))).
  { simpl. apply Forall_replicate. unfold in_s64, half64. lia. }
  apply shifted_run_results; try assumption.
  - apply lsq_init_wf, HW.
  - repeat split. intros j [Hc | Hc]; [discriminate Hc | simpl in Hc; lia].
Qed.

Lemma shifted_run_same_results_witness :
  snd (observe_all 3 (lsq_init 3)
         (shift_times 1000 [(100, 0); (90, 10); (80, 20); (70, 30)]))
  = [None; None; Some (-100, 1090); Some (-100, 1080)].
Proof.
  rewrite (shifted_run_same_results 3 1000
             [(100, 0); (90, 10); (80, 20); (70, 30)]).
  - vm_compute. reflexivity.
  - lia.
  - unfold in_s64. vm_compute. repeat split; intros; congruence.
  - repeat constructor; unfold in_s64, half64; simpl; lia.
Defined.

(** ** The fit as a function of the latest samples of a run *)

Section Sliding.

Lemma sum_with_app {A : Type} (f : A -> Z) (l1 l2 : list A) :
  sum_with f (l1 ++ l2) = sum_with f l1 + sum_with f l2.
Proof.
  induction l1 as [| a l1 IH]; [reflexivity |].
  simpl app. rewrite !sum_with_cons, IH. ring.
Qed.

Lemma sum_with_rotate {A : Type} (f : A -> Z) (n : nat) (l : list A) :
  sum_with f (rotate n l) = sum_with f l.
Proof.
  unfold rotate. set (cut := (n mod length l)%nat).
  transitivity (sum_with f (take cut l ++ drop cut l)).
  - rewrite !sum_with_app. ring.
  - rewrite take_drop. reflexivity.
Qed.

Lemma least_squares_line_rotate (Wz : Z) (n : nat) (l : list (Z * Z)) :
  least_squares_line Wz (rotate n l) = least_squares_line Wz l.
Proof.
  unfold least_squares_line, spec_intercept, spec_slope, slope_denominator,
    slope_numerator, Sx, Sy, Sxy, Sxx.
  rewrite !sum_with_rotate. reflexivity.
Qed.

Lemma no_overflow_rotate (Wz : Z) (n : nat) (l : list (Z * Z)) :
  no_overflow Wz (rotate n l) -> no_overflow Wz l.
Proof.
  unfold no_overflow, spec_slope, slope_denominator, slope_numerator,
    Sx, Sy, Sxy, Sxx.
  rewrite !sum_with_rotate. tauto.
Qed.

Lemma rotate_nat_add_mod (r i len : nat) :
  rotate_nat_add r i len = ((r + i) mod len)%nat.
Proof.
  unfold rotate_nat_add.
  rewrite <- Nat2Z.inj_add, <- Nat2Z.inj_mod. apply Nat2Z.id.
Qed.

Variable W : nat.
Hypothesis HW : (0 < W)%nat.

Lemma mod_slots_differ (i j : nat) :
  (i < j < i + W)%nat -> (i mod W)%nat <> (j mod W)%nat.
Proof.
  intros Hij Heq.
  apply (ring_slots_differ W (i mod W) (j - i)).
  - apply Nat.mod_upper_bound. lia.
  - lia.
  - rewrite Nat.Div0.add_mod_idemp_l.
    replace (i + (j - i))%nat with j by lia. symmetry. exact Heq.
Qed.

Lemma translated_points_lookup (lsq : lsq_struct) (j : nat) (t v : Z) :
  x lsq !! j = Some t -> y lsq !! j = Some v ->
  translated_points lsq !! j = Some (t - x_offset_of lsq, v).
Proof.
  intros Hx Hy. unfold translated_points. apply lookup_zip_Some.
  rewrite list_lookup_fmap, Hx. split; [reflexivity | exact Hy].
Qed.

Variable obs : list (Z * Z).
Variables vy vx : Z.

Hypothesis Hrun : fitted_run W (lsq_init W) obs.
Hypothesis Hvx : in_s64 vx.
Hypothesis Hfull : (W <= length obs + 1)%nat.

Let prev := lsq_after W obs.
Let lsq1 := lsq_insert W prev vy vx.
Let all := obs ++ [(vy, vx)].
Let r := (length obs + 1 - W)%nat.

Lemma sliding_prev_wf : lsq_wf W prev.
Proof. apply observe_all_wf, lsq_init_wf, HW. Qed.

Lemma sliding_prev_next : next prev = (length obs mod W)%nat.
Proof.
  unfold prev, lsq_after. rewrite observe_all_next by (simpl; exact HW).
  reflexivity.
Qed.

Lemma sliding_ready : ready lsq1 = true.
Proof.
  unfold lsq1, lsq_insert. simpl. case_bool_decide as Hw; [reflexivity |].
  unfold prev, lsq_after. rewrite observe_filling by (simpl; auto).
  apply bool_decide_eq_true. simpl.
  destruct (Nat.lt_ge_cases (length obs) W) as [Hlt | Hge]; [| exact Hge].
  exfalso. apply Hw. rewrite sliding_prev_next.
  rewrite Nat.mod_small by exact Hlt. lia.
Qed.

Lemma sliding_slot (i : nat) :
  (r <= i < length obs + 1)%nat ->
  x lsq1 !! (i mod W)%nat = snd <$> all !! i
  /\ y lsq1 !! (i mod W)%nat = fst <$> all !! i.
Proof.
  intros Hi. destruct sliding_prev_wf as (Hn & Hx & Hy).
  unfold lsq1, lsq_insert. simpl. rewrite sliding_prev_next.
  destruct (decide (i = length obs)) as [-> | Hne].
  - unfold all. rewrite list_lookup_middle by reflexivity. simpl.
    assert (Hb : (length obs mod W < W)%nat)
      by (apply Nat.mod_upper_bound; lia).
    split; apply list_lookup_insert_eq; lia.
  - assert (Hlt : (i < length obs)%nat) by lia.
    unfold all. rewrite lookup_app_l by exact Hlt.
    assert (Hd : (length obs mod W)%nat <> (i mod W)%nat).
    { intros E. apply (mod_slots_differ i (length obs)); [unfold r in Hi; lia |].
      symmetry. exact E. }
    rewrite !list_lookup_insert_ne by exact Hd.
    split.
    + apply (ring_slot_holds W x snd
               (fun lsq obs => Forall in_s64 (x lsq) /\ fitted_run W lsq obs)
               (fitted_run_step W) obs (lsq_init W) i); simpl.
      * exact HW.
      * apply length_replicate.
      * split; [| exact Hrun]. apply Forall_replicate.
        unfold in_s64, half64. lia.
      * exact Hlt.
      * unfold r in Hi. lia.
    + apply (ring_slot_holds W y fst (fun _ _ => True) (values_step W)
               obs (lsq_init W) i); simpl.
      * exact HW.
      * apply length_replicate.
      * exact I.
      * exact Hlt.
      * unfold r in Hi. lia.
Qed.

Lemma sliding_offset :
  x_offset_of lsq1 = default 0 (snd <$> head (drop r all)).
Proof.
  unfold x_offset_of.
  assert (Hnext : next lsq1 = (r mod W)%nat).
  { unfold lsq1. rewrite lsq_insert_next_mod by apply sliding_prev_wf.
    rewrite sliding_prev_next.
    replace (S (length obs mod W)) with (length obs mod W + 1)%nat by lia.
    rewrite Nat.Div0.add_mod_idemp_l.
    replace (length obs + 1)%nat with (r + 1 * W)%nat by (unfold r; lia).
    apply Nat.Div0.mod_add. }
  rewrite Hnext.
  destruct (sliding_slot r ltac:(unfold r; lia)) as [Hx _].
  rewrite list_lookup_total_alt, Hx.
  rewrite head_lookup, lookup_drop, Nat.add_0_r.
  destruct (all !! r) as [p |] eqn:E; [reflexivity |].
  apply lookup_ge_None in E. unfold all, r in E.
  rewrite length_app in E. simpl in E. lia.
Qed.

Lemma sliding_points :
  rotate r (translated_points lsq1) = recent_points W all.
Proof.
  assert (Hlen : length (translated_points lsq1) = W).
  { unfold translated_points, lsq1, lsq_insert. simpl.
    destruct sliding_prev_wf as (_ & Hx & Hy).
    rewrite length_zip, length_fmap, !length_insert. lia. }
  assert (Hall : length all = (length obs + 1)%nat)
    by (unfold all; rewrite length_app; reflexivity).
  apply list_eq. intros i.
  destruct (Nat.lt_ge_cases i W) as [Hi | Hi].
  - rewrite lookup_rotate_r by lia.
    rewrite Hlen, rotate_nat_add_mod.
    destruct (sliding_slot (r + i) ltac:(unfold r; lia)) as [Hx Hy].
    unfold recent_points. rewrite Hall. fold r.
    rewrite list_lookup_fmap, lookup_drop.
    destruct (all !! (r + i)%nat) as [[v t] |] eqn:E.
    + simpl in Hx, Hy. simpl.
      rewrite (translated_points_lookup lsq1 _ t v Hx Hy).
      rewrite sliding_offset. reflexivity.
    + apply lookup_ge_None in E. unfold r in E. lia.
  - rewrite lookup_ge_None_2 by (rewrite length_rotate; lia).
    symmetry. apply lookup_ge_None_2.
    unfold recent_points. rewrite length_fmap, length_drop, Hall.
    lia.
Qed.

Lemma sliding_fit :
  no_overflow (Z.of_nat W) (recent_points W all) ->
  snd (lsq_fit W prev vy vx)
  = least_squares_line (Z.of_nat W) (recent_points W all).
Proof.
  intros Hno. rewrite <- sliding_points in Hno |- *.
  apply no_overflow_rotate in Hno.
  rewrite least_squares_line_rotate.
  unfold lsq_fit. fold lsq1. rewrite sliding_ready. simpl negb. cbv iota.
  apply lsq_line_least_squares, Hno.
Qed.

Lemma sliding_no_trap :
  no_overflow (Z.of_nat W) (recent_points W all) ->
  lsq_fit_traps W prev vy vx = false.
Proof.
  intros Hno. rewrite <- sliding_points in Hno.
  apply no_overflow_rotate in Hno.
  unfold lsq_fit_traps. fold lsq1. rewrite sliding_ready. simpl negb.
  cbv iota. apply lsq_line_traps_in_range; [| apply Hno].
  destruct sliding_prev_wf as (Hn & Hx & Hy).
  unfold lsq_wf, lsq1, lsq_insert. simpl.
  rewrite !length_insert. repeat split; try assumption.
  case_bool_decide; lia.
Qed.

End Sliding.

(** C1 (as worded it fails). Two calls on a full window that do not return
    the closed form over the latest W samples with the times counted from
    the oldest of them.  The first comes after a call that returned through
    the divide-by-zero guard and left the stored times translated: the
    code fits the points (17, 70), (0, 90), (0, 80) where the samples are
    (0, 90), (0, 80), (10, 70).  In the second the denominator, 2^64, does
    not fit 64 bits: the code finds zero in its place and returns "no
    line". *)
Lemma closed_form_fails_after_guard_and_on_overflow :
  (ready (lsq_insert 3 (lsq_after 3 [(100, 7); (90, 7); (80, 7)]) 70 17)
   = true
   /\ snd (lsq_fit 3 (lsq_after 3 [(100, 7); (90, 7); (80, 7)]) 70 17)
      = Some (-88, 578)
   /\ recent_points 3 ([(100, 7); (90, 7); (80, 7)] ++ [(70, 17)])
      = [(0, 90); (0, 80); (10, 70)]
   /\ least_squares_line 3 [(0, 90); (0, 80); (10, 70)] = Some (-150, 580))
  /\ (ready (lsq_insert 2 (lsq_after 2 [(100, 0)]) 90 (2 ^ 32)) = true
      /\ snd (lsq_fit 2 (lsq_after 2 [(100, 0)]) 90 (2 ^ 32)) = None
      /\ recent_points 2 ([(100, 0)] ++ [(90, 2 ^ 32)])
         = [(0, 100); (2 ^ 32, 90)]
      /\ slope_denominator 2 [(0, 100); (2 ^ 32, 90)] = 2 ^ 64
      /\ least_squares_line 2 [(0, 100); (2 ^ 32, 90)] = Some (0, 95)).
Proof. vm_compute. repeat split. Qed.

(** C1, amended. After any run on a fresh estimator in which no call
    returned through the divide-by-zero guard, a call that leaves the window
    full works on the latest W samples, the new one included, with their
    times counted from the time of the oldest of them: with Sx, Sy, Sxy and
    Sxx the sums over these W points, the call returns: "no line" when
    W * Sxx - Sx^2 is zero, and otherwise the slope
    ((W * Sxy - Sx * Sy) * 100) / (W * Sxx - Sx^2) and the intercept
    (Sy - slope * Sx) / W, both by truncating integer division, provided
    the denominator, the scaled numerator, the slope and Sy - slope * Sx
    fit the 64-bit variables that hold them. *)
Theorem lsq_fit_history_closed_form (W : nat) (obs : list (Z * Z))
    (new_y new_x : Z) :
  let pts := recent_points W (obs ++ [(new_y, new_x)]) in
  let Wz := Z.of_nat W in
  let denominator := Wz * Sxx pts - Sx pts * Sx pts in
  let slope :=
    Z.quot ((Wz * Sxy pts - Sx pts * Sy pts) * 100) denominator in
  let intercept := Z.quot (Sy pts - slope * Sx pts) Wz in
  (0 < W)%nat ->
  fitted_run W (lsq_init W) obs ->
  (W <= length obs + 1)%nat ->
  no_overflow Wz pts ->
  lsq_fit_traps W (lsq_after W obs) new_y new_x = false
  /\ (denominator = 0 ->
      snd (lsq_fit W (lsq_after W obs) new_y new_x) = None)
  /\ (denominator <> 0 ->
      snd (lsq_fit W (lsq_after W obs) new_y new_x)
      = Some (slope, intercept)).
Proof.
  intros pts Wz denominator slope intercept HW Hrun Hfull Hno.
  split; [exact (sliding_no_trap W HW obs new_y new_x Hrun Hfull Hno) |].
  rewrite (sliding_fit W HW obs new_y new_x Hrun Hfull Hno).
  fold pts Wz. unfold least_squares_line.
  change (slope_denominator Wz pts) with denominator.
  split; intros Hd.
  - rewrite Hd. reflexivity.
  - destruct (Z.eqb_spec denominator 0) as [E | _]; [contradiction |].
    reflexivity.
Qed.

Lemma lsq_fit_history_closed_form_witness :
  snd (lsq_fit 3 (lsq_after 3 [(100, 0); (90, 10); (80, 20); (70, 30)]) 65 40)
  = Some (-75, 821)
  /\ snd (lsq_fit 3 (lsq_after 3 [(100, 7); (90, 7)]) 80 7) = None.
Proof.
  split.
  - refine (proj2 (proj2 (lsq_fit_history_closed_form 3
                            [(100, 0); (90, 10); (80, 20); (70, 30)] 65 40
                            _ _ _ _)) _).
    + lia.
    + unfold in_s64. vm_compute. repeat split; intros; congruence.
    + simpl. lia.
    + unfold no_overflow, in_s64. vm_compute.
      repeat split; first [intros H; discriminate H | reflexivity].
    + vm_compute. discriminate.
  - refine (proj1 (proj2 (lsq_fit_history_closed_form 3
                            [(100, 7); (90, 7)] 80 7 _ _ _ _)) _).
    + lia.
    + unfold in_s64. vm_compute. repeat split; intros; congruence.
    + simpl. lia.
    + unfold no_overflow, in_s64. vm_compute.
      repeat split; first [intros H; discriminate H | reflexivity].
    + vm_compute. reflexivity.
Defined.

(** X18. After any run on a fresh estimator in which no call ended at the
    divide-by-zero guard, the next call on a window that is then full works
    on the latest W samples and nothing else: it returns the closed form
    (slope scaled by 100, intercept, or "no line" for a zero denominator)
    over these W samples, oldest first, with the times counted from the
    oldest, provided the quantities tested and divided fit 64 bits. *)
Theorem sliding_window_closed_form (W : nat) (obs : list (Z * Z))
    (new_y new_x : Z) :
  (0 < W)%nat ->
  fitted_run W (lsq_init W) obs ->
  in_s64 new_x ->
  (W <= length obs + 1)%nat ->
  no_overflow (Z.of_nat W) (recent_points W (obs ++ [(new_y, new_x)])) ->
  snd (lsq_fit W (lsq_after W obs) new_y new_x)
  = least_squares_line (Z.of_nat W)
      (recent_points W (obs ++ [(new_y, new_x)])).
Proof.
  intros HW Hrun Hvx Hfull Hno.
  apply sliding_fit; assumption.
Qed.

Lemma sliding_window_closed_form_witness :
  snd (lsq_fit 3 (lsq_after 3 [(100, 0); (90, 10); (80, 20)]) 70 30)
  = least_squares_line 3 [(0, 90); (10, 80); (20, 70)].
Proof.
  apply (sliding_window_closed_form 3 [(100, 0); (90, 10); (80, 20)] 70 30).
  - lia.
  - unfold in_s64. vm_compute. repeat split; intros; congruence.
  - unfold in_s64, half64. lia.
  - simpl. lia.
  - unfold no_overflow, in_s64. vm_compute.
    repeat split; first [intros H; discriminate H | reflexivity].
Defined.

(** X19. As long as the estimator of some order below MAX_ORDER has seen
    fewer than W - 1 samples since its creation, [predict] returns the empty
    flag set, whatever the samples, the rates, the watermark and the other
    estimators are, unless the call of another estimator stops at a
    trapping division: then [predict] does not return. *)
Theorem predict_waits_for_full_windows (W MAX_ORDER : nat) (cfg : config)
    (clk : nat -> timespec) (frag_vec : list frag_info)
    (lsq : list lsq_struct) (high_wmark : Z) (order : nat)
    (obs : list (Z * Z)) :
  (order < MAX_ORDER)%nat ->
  lsq !!! order = lsq_after W obs ->
  (length obs + 1 < W)%nat ->
  snd (predict W MAX_ORDER cfg clk frag_vec lsq high_wmark)
  = if fit_traps W MAX_ORDER frag_vec lsq then Traps else Returns 0.
Proof.
  intros Ho Hl Hn.
  destruct (fit_traps W MAX_ORDER frag_vec lsq) eqn:Ht;
    [apply predict_fit_traps, Ht |].
  apply predict_not_ready; [exact Ht |]. unfold fit_orders.
  apply (fit_loop_failed W frag_vec MAX_ORDER 0 order); [lia |].
  unfold fit_call. simpl. rewrite Hl. apply lsq_fit_not_ready.
  assert (Hnext : next (lsq_after W obs) = length obs).
  { unfold lsq_after. rewrite observe_all_next by (simpl; lia).
    simpl. apply Nat.mod_small. lia. }
  rewrite lsq_insert_step by (rewrite Hnext; lia).
  simpl. unfold lsq_after. rewrite observe_filling by (simpl; auto; lia).
  apply bool_decide_eq_false. simpl. lia.
Qed.

Lemma predict_waits_for_full_windows_witness :
  snd (predict 3 2 (mk_config 2 1) (fun _ => mk_timespec 5 0)
         [mk_frag 80 20; mk_frag 40 20]
         [lsq_after 3 [(100, 0); (90, 10)]; lsq_after 3 [(50, 10)]] 50)
  = Returns 0.
Proof.
  rewrite (predict_waits_for_full_windows 3 2 (mk_config 2 1)
             (fun _ => mk_timespec 5 0) [mk_frag 80 20; mk_frag 40 20]
             [lsq_after 3 [(100, 0); (90, 10)]; lsq_after 3 [(50, 10)]] 50
             1 [(50, 10)]).
  - reflexivity.
  - lia.
  - reflexivity.
  - simpl. lia.
Defined.
